(** * GraphSelectionMapper: a shallow embedding and its properties

    The development follows [src/classes/GraphSelectionMapper.ts]:
    - [JsString]: the string primitives the class calls ([indexOf],
      [lastIndexOf], [substr], [replace]);
    - [JsObject]: an object used as a map, with the order in which
      [Object.keys] lists its own properties;
    - [GraphSelectionMapper]: the static methods of the class;
    - [Store]: the same [sanitizeFieldMap] over a store of arrays, where the
      argument and the working copy are distinct objects. *)

From Stdlib Require Import ZArith Ascii String.
From stdpp Require Import base tactics option list strings.

Local Open Scope Z_scope.
Local Open Scope stdpp_scope.
#[local] Set Warnings "-clear-no-such-hyp".

(** ** String primitives *)

(** Strings are Rocq strings; the primitives below only compare characters
    for equality, and single out the dot, the dollar sign and the decimal
    digits. *)

Module JsString.

(** [firstIndex pat s] is the least position of [s] at which [pat] starts. *)
Fixpoint firstIndex (pat s : string) : option nat :=
  match s with
  | EmptyString => if String.prefix pat s then Some 0%nat else None
  | String _ s' =>
      if String.prefix pat s then Some 0%nat else S <$> firstIndex pat s'
  end.

(** [lastIndex pat s] is the greatest position of [s] at which [pat] starts. *)
Fixpoint lastIndex (pat s : string) : option nat :=
  match s with
  | EmptyString => if String.prefix pat s then Some 0%nat else None
  | String _ s' =>
      match lastIndex pat s' with
      | Some n => Some (S n)
      | None => if String.prefix pat s then Some 0%nat else None
      end
  end.

(** [s.indexOf(searchString)]: the position, or [-1]. *)
Definition indexOf (s searchString : string) : Z :=
  match firstIndex searchString s with
  | Some n => Z.of_nat n
  | None => -1
  end.

(** [s.lastIndexOf(searchString)]: the position, or [-1]. *)
Definition lastIndexOf (s searchString : string) : Z :=
  match lastIndex searchString s with
  | Some n => Z.of_nat n
  | None => -1
  end.

(** [s.substr(start, length)]: a negative [start] counts from the end, the
    length is clamped to what is left of the string. *)
Definition substr (s : string) (start len : Z) : string :=
  let size := Z.of_nat (String.length s) in
  let intStart := if start <? 0 then Z.max (size + start) 0 else Z.min start size in
  let intLength := Z.min (Z.max len 0) size in
  let intEnd := Z.min (intStart + intLength) size in
  String.substring (Z.to_nat intStart) (Z.to_nat (intEnd - intStart)) s.

(** The text after the first [n] characters. *)
Fixpoint dropString (n : nat) (s : string) : string :=
  match n, s with
  | O, _ => s
  | S n', EmptyString => EmptyString
  | S n', String _ s' => dropString n' s'
  end.

(** GetSubstitution for a string pattern: there are no captures, so of the
    [$] forms only [$$], [$&], [$`] and [$'] are special; every other [$]
    stands for itself. *)
Fixpoint getSubstitution (matched preceding following replacement : string)
  : string :=
  match replacement with
  | EmptyString => EmptyString
  | String "$" (String "$" r) =>
      String "$" (getSubstitution matched preceding following r)
  | String "$" (String "&" r) =>
      matched +:+ getSubstitution matched preceding following r
  | String "$" (String "`" r) =>
      preceding +:+ getSubstitution matched preceding following r
  | String "$" (String "'" r) =>
      following +:+ getSubstitution matched preceding following r
  | String c r => String c (getSubstitution matched preceding following r)
  end.

(** [s.replace(searchValue, replaceValue)] with a string pattern: only the
    first occurrence is replaced. *)
Definition replace (s searchValue replaceValue : string) : string :=
  match firstIndex searchValue s with
  | None => s
  | Some pos =>
      let preceding := String.substring 0 pos s in
      let following := dropString (pos + String.length searchValue) s in
      preceding
        +:+ getSubstitution searchValue preceding following replaceValue
        +:+ following
  end.

End JsString.

Import JsString.

(** ** Objects used as maps *)

Module JsObject.

(** The array index a property key denotes, if it is one: a canonical
    decimal numeral below [2^32 - 1]. *)
Fixpoint digitsValue (acc : N) (s : string) : option N :=
  match s with
  | EmptyString => Some acc
  | String c s' =>
      match Ascii.is_nat c with
      | Some d => digitsValue (10 * acc + N.of_nat d)%N s'
      | None => None
      end
  end.

Definition arrayIndex (key : string) : option N :=
  match key with
  | EmptyString => None
  | String "0" EmptyString => Some 0%N
  | String "0" _ => None
  | _ =>
      match digitsValue 0 key with
      | Some n => if (n <? 2 ^ 32 - 1)%N then Some n else None
      | None => None
      end
  end.

Fixpoint insertByIndex (e : N * string) (l : list (N * string))
  : list (N * string) :=
  match l with
  | [] => [e]
  | e' :: l' =>
      if (e.1 <=? e'.1)%N then e :: l else e' :: insertByIndex e l'
  end.

Definition sortByIndex (l : list (N * string)) : list (N * string) :=
  foldr insertByIndex [] l.

(** The own properties of an object, in the order they were created. *)
Abbreviation object V := (list (string * V)).

Section Object.
Context {V : Type}.
Implicit Types o : object V.

(** [o[key]] for an own property. *)
Fixpoint get o (key : string) : option V :=
  match o with
  | [] => None
  | (k, v) :: o' => if decide (k = key) then Some v else get o' key
  end.

Fixpoint assign o (key : string) (v : V) : option (object V) :=
  match o with
  | [] => None
  | (k, w) :: o' =>
      if decide (k = key) then Some ((k, v) :: o')
      else cons (k, w) <$> assign o' key v
  end.

(** [o[key] = v] on an object created by [{}]: an existing property
    keeps its place, a new one is created last; [__proto__] is the
    accessor inherited from [Object.prototype], so assigning an object to
    it changes the prototype and creates no own property. *)
Definition set o (key : string) (v : V) : object V :=
  if decide (key = "__proto__") then o
  else match assign o key v with
       | Some o' => o'
       | None => o ++ [(key, v)]
       end.

(** [Object.keys(o)]: the array indices in ascending order, then the
    other keys in creation order. *)
Definition keys o : list string :=
  let ks := o.*1 in
  (sortByIndex (omap (λ k, (λ n, (n, k)) <$> arrayIndex k) ks)).*2
    ++ filter (λ k, arrayIndex k = None) ks.

End Object.

End JsObject.

(** ** The query builder the mapper drives *)

(** The entity descriptor handed through to the connection. *)
Definition Entity : Type := string.

(** The calls [mapGraph] makes on the [SelectQueryBuilder] it is given. *)
Inductive QueryCall : Type :=
  | GetMetadata (entity : Entity)
  | LeftJoinAndSelect (target aliasName : string)
  | Select (selection : list string).

(** The builder is a collaborator: it has a root [alias], it records the calls
    made on it, and [accepts] says whether a call returns or throws, given
    the calls made before it. *)
Record SelectQueryBuilder : Type := {
  alias : string;
  accepts : list QueryCall → QueryCall → bool;
  calls : list QueryCall
}.

Inductive outcome (A : Type) : Type :=
  | Returned (a : A) (q : SelectQueryBuilder)
  | Thrown (c : QueryCall) (q : SelectQueryBuilder).
Global Arguments Returned {A} a q.
Global Arguments Thrown {A} c q.

Definition Query (A : Type) : Type := SelectQueryBuilder → outcome A.

Definition ret {A} (a : A) : Query A := λ q, Returned a q.

Definition bind {A B} (m : Query A) (k : A → Query B) : Query B :=
  λ q, match m q with
       | Returned a q' => k a q'
       | Thrown c q' => Thrown c q'
       end.

Notation "m ;;; k" := (bind m (λ _, k))
  (at level 100, k at level 200, right associativity).

Definition recordCall (c : QueryCall) (q : SelectQueryBuilder)
  : SelectQueryBuilder :=
  {| alias := alias q; accepts := accepts q; calls := calls q ++ [c] |}.

(** One call on the builder: it is recorded, and it returns or throws as the
    builder decides. *)
Definition call (c : QueryCall) : Query () :=
  λ q, if accepts q (calls q) c then Returned () (recordCall c q)
       else Thrown c (recordCall c q).

(** [l.forEach(f)] for a callback acting on the builder: an exception ends
    the loop. *)
Fixpoint forEachQ {A} (f : A → Query ()) (l : list A) : Query () :=
  match l with
  | [] => ret ()
  | x :: l' => f x ;;; forEachQ f l'
  end.

(** ** The mapper *)

Record RelationBinding : Type := {
  uniqueAlias : string;
  targetRelation : string;
  aliasedTargetRelation : string
}.

Abbreviation UniqueRelationMap := (JsObject.object RelationBinding).

(** The static methods of the class, in source order. The [console.log]
    calls of [assignSelectionToQuery] and [mapGraph] only print and are left
    out. *)

Module GraphSelectionMapper.

(** An array of strings that [delete] may have punched holes in:
    [None] is a hole. *)
Abbreviation sparseArray := (list (option string)).

(** [delete map[key]] *)
Definition deleteElement (key : nat) (map : sparseArray) : sparseArray :=
  <[key := None]> map.

(** [map.forEach(callback)] where the callback may delete elements of
    [map] itself: the indices below the length at the start are visited in
    order, and an index is skipped when it is a hole by the time it is
    reached. *)
Definition forEach (callback : string → nat → sparseArray → sparseArray)
    (map : sparseArray) : sparseArray :=
  fold_left
    (λ map key, match map !! key with
                | Some (Some field) => callback field key map
                | _ => map
                end)
    (seq 0 (length map)) map.

Definition sanitizeFieldMap (fieldMap : list string) : list string :=
  let map : sparseArray := Some <$> fieldMap in
  let map :=
    forEach (λ field key map,
      forEach (λ otherField otherKey map,
        if decide (otherKey = key) then map
        else if decide (indexOf otherField field ≠ -1)
             then deleteElement key map
             else map) map) map in
  omap id map.

(** [map.indexOf(x)] on an array of strings. *)
Fixpoint arrayIndexOf (map : list string) (x : string) : Z :=
  match map with
  | [] => -1
  | y :: map' =>
      if decide (y = x) then 0
      else let i := arrayIndexOf map' x in
           if decide (i = -1) then -1 else i + 1
  end.

Definition getRelationMap (fieldMap : list string) : list string :=
  fold_left
    (λ map field,
       let relation := substr field 0 (lastIndexOf field ".") in
       if decide (arrayIndexOf map relation = -1) then map ++ [relation]
       else map)
    (filter (λ field, indexOf field "." ≠ -1) fieldMap)
    [].

(** The closure [getAliasedTargetRelation] of [getUniqueRelationMap]; [urm]
    is the map as built so far. *)
Definition getAliasedTargetRelation (urm : UniqueRelationMap)
    (targetRelation : string) : string :=
  if decide (indexOf targetRelation "." = -1) then targetRelation
  else
    let prefix := substr targetRelation 0 (lastIndexOf targetRelation ".") in
    let targetRel :=
      fold_left
        (λ targetRel relation,
           if decide (relation = prefix) then
             match JsObject.get urm relation with
             | Some b => replace targetRelation prefix (uniqueAlias b)
             | None => targetRel
             end
           else targetRel)
        (JsObject.keys urm) "" in
    if decide (targetRel = "") then targetRelation else targetRel.

(** [makeId n] is the token the [n]-th call of [UniqueIdGenerator.makeId(5)]
    of this run returns (the generator is not part of the mapper); the
    state of the loop is the map together with the number of tokens drawn. *)
Definition getUniqueRelationMap (makeId : nat → string)
    (fieldMap : list string) : UniqueRelationMap :=
  let relationMap := getRelationMap fieldMap in
  (fold_left
     (λ (state : UniqueRelationMap * nat) targetRelation,
        let '(urm, drawn) := state in
        let aliasedTargetRelation :=
          getAliasedTargetRelation urm targetRelation in
        let uniqueAlias := makeId drawn in
        (JsObject.set urm targetRelation
           {| targetRelation := targetRelation;
              aliasedTargetRelation := aliasedTargetRelation;
              uniqueAlias := uniqueAlias |},
         S drawn))
     relationMap ([], 0%nat)).1.

(** The call [joinRelationsToQuery] makes for one key. *)
Definition joinCall (rootAlias : string) (urm : UniqueRelationMap)
    (relation : string) : option QueryCall :=
  b ← JsObject.get urm relation;
  Some (if decide (indexOf relation "." = -1)
        then LeftJoinAndSelect (rootAlias +:+ targetRelation b) (uniqueAlias b)
        else LeftJoinAndSelect (aliasedTargetRelation b) (uniqueAlias b)).

Definition joinRelationsToQuery (urm : UniqueRelationMap) : Query () :=
  forEachQ
    (λ relation q,
       match joinCall (alias q) urm relation with
       | Some c => call c q
       | None => Returned () q
       end)
    (JsObject.keys urm).

(** The callback of [fieldMap.map] in [assignSelectionToQuery]. *)
Definition selectField (rootAlias : string) (urm : UniqueRelationMap)
    (field : string) : string :=
  let uf :=
    fold_left
      (λ uf relation,
         if decide (indexOf field relation ≠ -1) then
           match JsObject.get urm relation with
           | Some b => replace field relation (uniqueAlias b)
           | None => uf
           end
         else uf)
      (JsObject.keys urm) field in
  if decide (indexOf uf "." = -1) then rootAlias +:+ "." +:+ uf else uf.

Definition assignSelectionToQuery (fieldMap : list string)
    (urm : UniqueRelationMap) : Query () :=
  λ q, let selection := selectField (alias q) urm <$> fieldMap in
       call (Select selection) q.

Definition mapGraph (makeId : nat → string) (fieldMap : list string)
    (entity : Entity) : Query UniqueRelationMap :=
  call (GetMetadata entity) ;;;
  let effectiveFieldMap := sanitizeFieldMap fieldMap in
  let urm := getUniqueRelationMap makeId effectiveFieldMap in
  joinRelationsToQuery urm ;;;
  assignSelectionToQuery effectiveFieldMap urm ;;;
  ret urm.

End GraphSelectionMapper.

Import GraphSelectionMapper.

(** ** The arrays as objects in a store *)

Module Store.

(** A reference to an array. *)
Definition ref : Type := nat.

(** The arrays allocated so far; a reference is an index into the store. *)
Abbreviation store := (list sparseArray).

Definition alloc (a : sparseArray) (σ : store) : ref * store :=
  (length σ, σ ++ [a]).

Definition read (r : ref) (σ : store) : sparseArray := default [] (σ !! r).

(** [delete r[key]] *)
Definition deleteAt (r : ref) (key : nat) (σ : store) : store :=
  alter (deleteElement key) r σ.

(** [r.forEach(callback)], the callback acting on the store. *)
Definition forEach (r : ref) (callback : string → nat → store → store)
    (σ : store) : store :=
  fold_left
    (λ σ key, match read r σ !! key with
              | Some (Some field) => callback field key σ
              | _ => σ
              end)
    (seq 0 (length (read r σ))) σ.

(** [sanitizeFieldMap(fieldMap)]: [map] is a fresh array holding the
    elements of [fieldMap] (a [string[]], so without holes), the deletions
    go to [map], and the array returned is the fresh one [filter] makes. *)
Definition sanitizeFieldMap (fieldMap : ref) (σ : store) : ref * store :=
  let '(map, σ) := alloc (read fieldMap σ) σ in
  let σ :=
    forEach map (λ field key σ,
      forEach map (λ otherField otherKey σ,
        if decide (otherKey = key) then σ
        else if decide (indexOf otherField field ≠ -1)
             then deleteAt map key σ
             else σ) σ) σ in
  alloc (Some <$> omap id (read map σ)) σ.

(** [mapGraph(fieldMap, query, entity)]: the later steps only read the
    sanitized array. *)
Definition mapGraph (makeId : nat → string) (fieldMap : ref) (entity : Entity)
    (σ : store) (q : SelectQueryBuilder) : store * outcome UniqueRelationMap :=
  match call (GetMetadata entity) q with
  | Thrown c q' => (σ, Thrown c q')
  | Returned _ q' =>
      let '(effectiveFieldMap, σ') := sanitizeFieldMap fieldMap σ in
      let elements := omap id (read effectiveFieldMap σ') in
      let urm := getUniqueRelationMap makeId elements in
      (σ', (joinRelationsToQuery urm ;;;
            assignSelectionToQuery elements urm ;;;
            ret urm) q')
  end.

End Store.

(** ** Notions the statements use *)

(** [pat] occurs in [s] as a literal substring. *)
Definition occurs (pat s : string) : Prop := ∃ pre post, s = pre +:+ pat +:+ post.

(** [pat] starts at position [n] of [s]. *)
Definition occursAt (n : nat) (pat s : string) : Prop :=
  ∃ pre post, s = pre +:+ pat +:+ post ∧ String.length pre = n.

(** The relation path of a field: what [getRelationMap] and
    [getAliasedTargetRelation] cut off before the last dot. *)
Definition relationOf (field : string) : string :=
  substr field 0 (lastIndexOf field ".").

(** Keeping the first occurrence of every element. *)
Fixpoint firstSeen (l : list string) : list string :=
  match l with
  | [] => []
  | x :: l' => x :: filter (λ y, y ≠ x) (firstSeen l')
  end.

(** The callback of the inner [forEach], for the element [field] at [key]
    of the outer one. *)
Definition innerCallback (key : nat) (field : string)
    (otherField : string) (otherKey : nat) (map : sparseArray) : sparseArray :=
  if decide (otherKey = key) then map
  else if decide (indexOf otherField field ≠ -1) then deleteElement key map
       else map.

(** Some other element still in the array contains [field]. *)
Definition subsumed (map : sparseArray) (key : nat) (field : string) : Prop :=
  ∃ otherKey otherField,
    otherKey ≠ key ∧ map !! otherKey = Some (Some otherField)
    ∧ occurs field otherField.

(** The array the nested loops leave behind. *)
Definition sanitizeLoop (fieldMap : list string) : sparseArray :=
  forEach (λ field key map, forEach (innerCallback key field) map)
    (Some <$> fieldMap).

(** What holds of the array once the outer loop has gone past the first
    [k] indices. *)
Record sanitizeInv (l : list string) (k : nat) (m : sparseArray) : Prop := {
  inv_length : length m = length l;
  inv_original : ∀ i x, m !! i = Some (Some x) → l !! i = Some x;
  inv_pending : ∀ i x, (k ≤ i)%nat → l !! i = Some x → m !! i = Some (Some x);
  inv_kept : ∀ i j x y, (i < k)%nat → i ≠ j →
    m !! i = Some (Some x) → m !! j = Some (Some y) → ¬ occurs x y;
  inv_cover : ∀ j y, l !! j = Some y →
    ∃ j' y', m !! j' = Some (Some y') ∧ occurs y y'
}.

(** One turn of the loop of [getUniqueRelationMap]. *)
Definition urmStep (makeId : nat → string) (st : UniqueRelationMap * nat)
    (targetRelation : string)
  : UniqueRelationMap * nat :=
  let '(urm, drawn) := st in
  (JsObject.set urm targetRelation
     {| targetRelation := targetRelation;
        aliasedTargetRelation := getAliasedTargetRelation urm targetRelation;
        uniqueAlias := makeId drawn |},
   S drawn).

(** The builder after the calls [cs] have all returned. *)
Definition afterCalls (cs : list QueryCall) (q : SelectQueryBuilder)
  : SelectQueryBuilder :=
  {| alias := alias q; accepts := accepts q; calls := calls q ++ cs |}.

(** The calls [joinRelationsToQuery] makes, in order. *)
Definition joinPlan (rootAlias : string) (urm : UniqueRelationMap)
  : list QueryCall :=
  omap (joinCall rootAlias urm) (JsObject.keys urm).

(** The calls [mapGraph] makes, in order. *)
Definition mapGraphPlan (makeId : nat → string) (fieldMap : list string)
    (entity : Entity) (rootAlias : string) : list QueryCall :=
  let effectiveFieldMap := sanitizeFieldMap fieldMap in
  let urm := getUniqueRelationMap makeId effectiveFieldMap in
  GetMetadata entity
    :: joinPlan rootAlias urm
    ++ [Select (selectField rootAlias urm <$> effectiveFieldMap)].

(** ** Sample inputs *)

Definition testFieldMap : list string :=
  ["store"; "store.name"; "store.location.streetName"; "store.id"; "store.id";
   "store.location.city"].

Definition sampleIds (n : nat) : string :=
  match n with 0%nat => "aaaaa" | 1%nat => "bbbbb" | _ => "ccccc" end.

(** A token stream under which two bindings share their alias. *)
Definition constantIds (n : nat) : string := "aaaaa".

Definition freshQuery (a : string) : SelectQueryBuilder :=
  {| alias := a; accepts := λ _ _, true; calls := [] |}.

Definition sampleUrm : UniqueRelationMap :=
  getUniqueRelationMap sampleIds ["store.location.city"; "store.id"].

(** * Properties *)

(** ** The model on sample inputs *)

Example indexOf_ex1 : indexOf "store.name" "." = 5.
Proof. reflexivity. Qed.
Example indexOf_ex2 : indexOf "store" "." = -1.
Proof. reflexivity. Qed.
Example indexOf_ex3 : indexOf "" "" = 0.
Proof. reflexivity. Qed.
Example lastIndexOf_ex1 : lastIndexOf "store.location.city" "." = 14.
Proof. reflexivity. Qed.
Example substr_ex1 : substr "store.location.city" 0 14 = "store.location".
Proof. reflexivity. Qed.
Example replace_ex1 : replace "store.location" "store" "aB3x9" = "aB3x9.location".
Proof. reflexivity. Qed.
Example replace_ex2 : replace "a.b.a" "a" "$&$&" = "aa.b.a".
Proof. reflexivity. Qed.
Example replace_ex3 : replace "xay" "a" "$'$`$$$1" = "xyx$$1y".
Proof. reflexivity. Qed.

Example keys_ex1 :
  JsObject.keys (JsObject.set (JsObject.set (JsObject.set (JsObject.set [] "b" 1) "10" 2) "a" 3) "9" 4)
  = ["9"; "10"; "b"; "a"].
Proof. reflexivity. Qed.
Example keys_ex2 :
  JsObject.keys (JsObject.set (JsObject.set (JsObject.set [] "01" 1) "__proto__" 2) "4294967295" 3)
  = ["01"; "4294967295"].
Proof. reflexivity. Qed.

Example sanitize_ex1 :
  sanitizeFieldMap testFieldMap
  = ["store.name"; "store.location.streetName"; "store.id"; "store.location.city"].
Proof. reflexivity. Qed.

Example sanitize_ex2 : sanitizeFieldMap ["a"; "a"; "ab"; "a"; "b"; "ab"; "c"] = ["ab"; "c"].
Proof. reflexivity. Qed.

Example relmap_ex1 :
  getRelationMap ["store.name"; "store.location.streetName"; "store.id"; "store.location.city"]
  = ["store"; "store.location"].
Proof. reflexivity. Qed.

Example urm_ex1 :
  getUniqueRelationMap sampleIds
    ["store.name"; "store.location.streetName"; "store.id"; "store.location.city"]
  = [("store", {| uniqueAlias := "aaaaa"; targetRelation := "store";
                  aliasedTargetRelation := "store" |});
     ("store.location", {| uniqueAlias := "bbbbb"; targetRelation := "store.location";
                  aliasedTargetRelation := "aaaaa.location" |})].
Proof. reflexivity. Qed.

Example mapGraph_ex1 :
  match mapGraph sampleIds (testFieldMap ++ ["total"]) "Order" (freshQuery "order") with
  | Returned _ q => calls q
  | Thrown _ _ => []
  end
  = [GetMetadata "Order";
     LeftJoinAndSelect "orderstore" "aaaaa";
     LeftJoinAndSelect "aaaaa.location" "bbbbb";
     Select ["aaaaa.name"; "bbbbb.streetName"; "aaaaa.id"; "bbbbb.city"; "order.total"]].
Proof. vm_compute. reflexivity. Qed.

(** The field map of the README: ["users"] is no key of the map, so the join
    target of ["users.roles"] stays the dotted path. *)
Example mapGraph_readme :
  match mapGraph sampleIds ["users"; "users.roles"; "users.roles.actions"; "name"]
          "Organization" (freshQuery "organization") with
  | Returned urm q => (urm.*1, calls q)
  | Thrown _ _ => ([], [])
  end
  = (["users.roles"],
     [GetMetadata "Organization";
      LeftJoinAndSelect "users.roles" "aaaaa";
      Select ["aaaaa.actions"; "organization.name"]]).
Proof. vm_compute. reflexivity. Qed.

(** [Object.keys] lists an array index before the other keys, whenever it was
    created; a path segment that is an identifier is never one. *)
Example selectField_index_key :
  let urm := getUniqueRelationMap sampleIds ["b1.x"; "1.y"] in
  urm.*1 = ["b1"; "1"] ∧ JsObject.keys urm = ["1"; "b1"]
  ∧ selectField "root" urm "b1.x" = "aaaaa.x".
Proof. vm_compute. done. Qed.

(** [replace] expands the [$] forms of its replacement text; a generator
    token has none. *)
Example selectField_dollar :
  selectField "root"
    [("store", {| uniqueAlias := "$&$&"; targetRelation := "store";
                  aliasedTargetRelation := "store" |})] "store.id"
  = "storestore.id".
Proof. reflexivity. Qed.

Example store_sanitize_ex :
  Store.sanitizeFieldMap 1%nat [[Some "x"]; Some <$> testFieldMap]
  = (3%nat,
     [[Some "x"]; Some <$> testFieldMap;
      [None; Some "store.name"; Some "store.location.streetName"; None;
       Some "store.id"; Some "store.location.city"];
      [Some "store.name"; Some "store.location.streetName"; Some "store.id";
       Some "store.location.city"]]).
Proof. reflexivity. Qed.

(** ** Facts about the string primitives *)

Section StringFacts.
Implicit Types s t u pat pre post : string.

Lemma sapp_nil_l s : "" +:+ s = s.
Proof. reflexivity. Qed.

Lemma sapp_cons c s t : String c s +:+ t = String c (s +:+ t).
Proof. reflexivity. Qed.

Lemma sapp_nil_r s : s +:+ "" = s.
Proof. induction s as [|c s IH]; [done|]. by rewrite sapp_cons, IH. Qed.

Lemma sapp_assoc s t u : (s +:+ t) +:+ u = s +:+ t +:+ u.
Proof. induction s as [|c s IH]; [done|]. by rewrite !sapp_cons, IH. Qed.

Lemma slength_app s t :
  String.length (s +:+ t) = (String.length s + String.length t)%nat.
Proof. induction s as [|c s IH]; [done|]. rewrite sapp_cons. simpl. by rewrite IH. Qed.

Lemma length_zero s : String.length s = 0%nat → s = "".
Proof. by destruct s. Qed.

Lemma prefix_true_iff pat s : String.prefix pat s = true ↔ ∃ t, s = pat +:+ t.
Proof.
  revert s. induction pat as [|a pat IH]; intros s; simpl.
  - destruct s; split; eauto.
  - destruct s as [|b s]; simpl.
    + split; [done|]. intros [t Ht]. by rewrite sapp_cons in Ht.
    + destruct (ascii_dec a b) as [->|Hab].
      * rewrite IH. split; intros [t Ht]; exists t.
        -- by rewrite sapp_cons, Ht.
        -- rewrite sapp_cons in Ht. by simplify_eq.
      * split; [done|]. intros [t Ht]. rewrite sapp_cons in Ht. by simplify_eq.
Qed.

Lemma occursAt_0 pat s : occursAt 0 pat s ↔ String.prefix pat s = true.
Proof.
  rewrite prefix_true_iff. split.
  - intros (pre & post & -> & Hlen). apply length_zero in Hlen as ->. eauto.
  - intros [t ->]. by exists "", t.
Qed.

Lemma occursAt_S n pat c s : occursAt (S n) pat (String c s) ↔ occursAt n pat s.
Proof.
  split.
  - intros (pre & post & Heq & Hlen). destruct pre as [|c' pre]; [done|].
    rewrite sapp_cons in Heq. simplify_eq/=. by exists pre, post.
  - intros (pre & post & -> & Hlen). exists (String c pre), post.
    split; [done|]. simpl. by rewrite Hlen.
Qed.

Lemma occursAt_nil n pat : occursAt n pat "" → n = 0%nat.
Proof. intros (pre & post & Heq & Hlen). by destruct pre. Qed.

Lemma occurs_occursAt pat s : occurs pat s ↔ ∃ n, occursAt n pat s.
Proof.
  split.
  - intros (pre & post & ->). exists (String.length pre). by exists pre, post.
  - intros (n & pre & post & -> & _). by exists pre, post.
Qed.

Lemma firstIndex_nil pat :
  firstIndex pat "" = if String.prefix pat "" then Some 0%nat else None.
Proof. reflexivity. Qed.

Lemma firstIndex_cons pat c s :
  firstIndex pat (String c s)
  = if String.prefix pat (String c s) then Some 0%nat else S <$> firstIndex pat s.
Proof. reflexivity. Qed.

Lemma lastIndex_nil pat :
  lastIndex pat "" = if String.prefix pat "" then Some 0%nat else None.
Proof. reflexivity. Qed.

Lemma lastIndex_cons pat c s :
  lastIndex pat (String c s)
  = match lastIndex pat s with
    | Some n => Some (S n)
    | None => if String.prefix pat (String c s) then Some 0%nat else None
    end.
Proof. reflexivity. Qed.

Lemma firstIndex_Some pat s n :
  firstIndex pat s = Some n →
  occursAt n pat s ∧ ∀ m, occursAt m pat s → (n ≤ m)%nat.
Proof.
  revert n. induction s as [|c s IH]; intros n.
  - rewrite firstIndex_nil. destruct (String.prefix pat "") eqn:Hp; [|done].
    intros [= <-]. split; [by apply occursAt_0|lia].
  - rewrite firstIndex_cons. destruct (String.prefix pat (String c s)) eqn:Hp.
    + intros [= <-]. split; [by apply occursAt_0|lia].
    + destruct (firstIndex pat s) as [k|]; [|done]. intros [= <-].
      destruct (IH k eq_refl) as [Hk Hmin]. split; [by apply occursAt_S|].
      intros [|m] Hm.
      * apply occursAt_0 in Hm. congruence.
      * apply occursAt_S, Hmin in Hm. lia.
Qed.

Lemma firstIndex_None pat s : firstIndex pat s = None → ¬ occurs pat s.
Proof.
  rewrite occurs_occursAt. induction s as [|c s IH].
  - rewrite firstIndex_nil. destruct (String.prefix pat "") eqn:Hp; [done|].
    intros _ [n Hn].
    pose proof (occursAt_nil _ _ Hn) as ->. apply occursAt_0 in Hn. congruence.
  - rewrite firstIndex_cons.
    destruct (String.prefix pat (String c s)) eqn:Hp; [done|].
    destruct (firstIndex pat s); [done|]. intros _ [[|n] Hn].
    + apply occursAt_0 in Hn. congruence.
    + apply occursAt_S in Hn. apply IH; eauto.
Qed.

Lemma lastIndex_None_occursAt pat s m : lastIndex pat s = None → ¬ occursAt m pat s.
Proof.
  revert m. induction s as [|c s IH]; intros m.
  - rewrite lastIndex_nil. destruct (String.prefix pat "") eqn:Hp; [done|].
    intros _ Hm.
    pose proof (occursAt_nil _ _ Hm) as ->. apply occursAt_0 in Hm. congruence.
  - rewrite lastIndex_cons. destruct (lastIndex pat s); [done|].
    destruct (String.prefix pat (String c s)) eqn:Hp; [done|].
    intros _ Hm. destruct m as [|m].
    + apply occursAt_0 in Hm. congruence.
    + apply occursAt_S in Hm. by eapply IH.
Qed.

Lemma lastIndex_Some pat s n :
  lastIndex pat s = Some n →
  occursAt n pat s ∧ ∀ m, occursAt m pat s → (m ≤ n)%nat.
Proof.
  revert n. induction s as [|c s IH]; intros n.
  - rewrite lastIndex_nil. destruct (String.prefix pat "") eqn:Hp; [|done].
    intros [= <-]. split; [by apply occursAt_0|].
    intros m Hm. by rewrite (occursAt_nil _ _ Hm).
  - rewrite lastIndex_cons. destruct (lastIndex pat s) as [k|] eqn:Hk.
    + intros [= <-]. destruct (IH k eq_refl) as [Hocc Hmax].
      split; [by apply occursAt_S|]. intros [|m] Hm; [lia|].
      apply occursAt_S, Hmax in Hm. lia.
    + destruct (String.prefix pat (String c s)) eqn:Hp; [|done].
      intros [= <-]. split; [by apply occursAt_0|].
      intros [|m] Hm; [lia|]. apply occursAt_S in Hm.
      by apply (lastIndex_None_occursAt _ _ _ Hk) in Hm.
Qed.

Lemma lastIndex_None pat s : lastIndex pat s = None → ¬ occurs pat s.
Proof.
  rewrite occurs_occursAt. intros Hn [m Hm].
  by apply (lastIndex_None_occursAt _ _ _ Hn) in Hm.
Qed.

Lemma indexOf_occurs s pat : indexOf s pat ≠ -1 ↔ occurs pat s.
Proof.
  unfold indexOf. destruct (firstIndex pat s) as [n|] eqn:Hn.
  - split; [|lia]. intros _. apply occurs_occursAt. exists n.
    by apply firstIndex_Some.
  - split; [done|]. intros Hocc. by apply firstIndex_None in Hn.
Qed.

Lemma indexOf_not_occurs s pat : indexOf s pat = -1 ↔ ¬ occurs pat s.
Proof.
  rewrite <-indexOf_occurs. destruct (decide (indexOf s pat = -1)); naive_solver.
Qed.

Lemma lastIndexOf_occurs s pat : lastIndexOf s pat ≠ -1 ↔ occurs pat s.
Proof.
  unfold lastIndexOf. destruct (lastIndex pat s) as [n|] eqn:Hn.
  - split; [|lia]. intros _. apply occurs_occursAt. exists n.
    by apply lastIndex_Some.
  - split; [done|]. intros Hocc. by apply lastIndex_None in Hn.
Qed.

Lemma occurs_refl s : occurs s s.
Proof. exists "", "". by rewrite sapp_nil_l, sapp_nil_r. Qed.

Lemma occurs_trans s t u : occurs s t → occurs t u → occurs s u.
Proof.
  intros (p1 & q1 & ->) (p2 & q2 & ->). exists (p2 +:+ p1), (q1 +:+ q2).
  by rewrite !sapp_assoc.
Qed.

Lemma occurs_length s t : occurs s t → (String.length s ≤ String.length t)%nat.
Proof. intros (p & q & ->). rewrite !slength_app. lia. Qed.

Lemma occurs_antisym s t : occurs s t → occurs t s → s = t.
Proof.
  intros (p & q & ->) Hts%occurs_length. rewrite !slength_app in Hts.
  assert (p = "") as -> by (apply length_zero; lia).
  assert (q = "") as -> by (apply length_zero; lia).
  by rewrite sapp_nil_l, sapp_nil_r.
Qed.

Lemma substring_app pre post :
  String.substring 0 (String.length pre) (pre +:+ post) = pre.
Proof.
  induction pre as [|c pre IH].
  - by destruct post.
  - rewrite sapp_cons. simpl. by rewrite IH.
Qed.

Lemma dropString_app pre post : dropString (String.length pre) (pre +:+ post) = post.
Proof. induction pre as [|c pre IH]; [done|]. by rewrite sapp_cons. Qed.

Lemma substr_prefix pre post :
  substr (pre +:+ post) 0 (Z.of_nat (String.length pre)) = pre.
Proof.
  unfold substr. rewrite slength_app. simpl.
  replace (Z.to_nat (Z.min 0 _)) with 0%nat by lia.
  match goal with |- String.substring 0 ?n _ = _ =>
    replace n with (String.length pre) by lia end.
  apply substring_app.
Qed.

End StringFacts.

(** ** Iteration over the indices of an array *)

Lemma fold_left_seq_ind {S : Type} (P : nat → S → Prop) (step : S → nat → S)
    (n : nat) (s0 : S) :
  P 0%nat s0 →
  (∀ k s, (k < n)%nat → P k s → P (Datatypes.S k) (step s k)) →
  P n (fold_left step (seq 0 n) s0).
Proof.
  intros H0 Hstep. induction n as [|n IH]; [done|].
  rewrite seq_S, fold_left_app. simpl. apply Hstep; [lia|].
  apply IH. intros k s Hk. apply Hstep. lia.
Qed.

(** ** getRelationMap *)

Lemma relationOf_spec field :
  indexOf field "." ≠ -1 →
  ∃ last, field = relationOf field +:+ "." +:+ last ∧ ¬ occurs "." last.
Proof.
  intros Hdot%indexOf_occurs%lastIndexOf_occurs. unfold relationOf.
  unfold lastIndexOf in *. destruct (lastIndex "." field) as [n|] eqn:Hn; [|done].
  apply lastIndex_Some in Hn as [(pre & post & -> & Hlen) Hmax].
  exists post. rewrite <-Hlen, substr_prefix. split; [done|].
  intros (a & b & ->).
  assert (occursAt (String.length (pre +:+ "." +:+ a)) "." (pre +:+ "." +:+ a +:+ "." +:+ b)) as Hocc.
  { exists (pre +:+ "." +:+ a), b. by rewrite !sapp_assoc. }
  apply Hmax in Hocc. rewrite !slength_app in Hocc. simpl in Hocc. lia.
Qed.

Lemma relationOf_unique field pre last :
  field = pre +:+ "." +:+ last → ¬ occurs "." last → relationOf field = pre.
Proof.
  intros -> Hlast. unfold relationOf, lastIndexOf.
  destruct (lastIndex "." (pre +:+ "." +:+ last)) as [n|] eqn:Hn.
  - apply lastIndex_Some in Hn as [(pre' & post' & Heq & Hlen) Hmax].
    assert (n = String.length pre) as ->; [|apply substr_prefix].
    assert (String.length pre ≤ n)%nat by (apply Hmax; by exists pre, last).
    destruct (decide (n = String.length pre)) as [|Hne]; [done|]. exfalso.
    apply Hlast. clear Hmax. subst n.
    revert pre' Heq H Hne. induction pre as [|c pre IH]; intros pre' Heq Hle Hne.
    + destruct pre' as [|c' pre']; [done|]. rewrite sapp_nil_l, !sapp_cons in Heq.
      simplify_eq. by exists pre', post'.
    + destruct pre' as [|c' pre']; [simpl in Hle; lia|].
      rewrite !sapp_cons in Heq. simplify_eq. simpl in *.
      apply (IH pre'); [done|lia|lia].
  - apply lastIndex_None in Hn. exfalso. apply Hn. by exists pre, last.
Qed.

Lemma arrayIndexOf_ge map x : -1 ≤ arrayIndexOf map x.
Proof.
  induction map as [|y map IH]; simpl; [lia|].
  destruct (decide (y = x)); [lia|]. destruct (decide (arrayIndexOf map x = -1)); lia.
Qed.

Lemma arrayIndexOf_not_elem_of map x : arrayIndexOf map x = -1 ↔ x ∉ map.
Proof.
  induction map as [|y map IH]; simpl.
  - split; [|done]. intros _. apply not_elem_of_nil.
  - pose proof (arrayIndexOf_ge map x). rewrite not_elem_of_cons.
    destruct (decide (y = x)) as [->|Hne]; [split; [lia|tauto]|].
    destruct (decide (arrayIndexOf map x = -1)) as [He|He].
    + split; [|done]. intros _. split; [done|]. by apply IH.
    + split; [lia|]. intros [_ Hx]. by apply IH in Hx.
Qed.

Lemma getRelationMap_fold rs acc :
  NoDup acc →
  fold_left
    (λ map field,
       let relation := relationOf field in
       if decide (arrayIndexOf map relation = -1) then map ++ [relation] else map)
    rs acc
  = acc ++ filter (λ r, r ∉ acc) (firstSeen (relationOf <$> rs)).
Proof.
  revert acc. induction rs as [|f rs IH]; intros acc Hacc; simpl.
  - by rewrite filter_nil, app_nil_r.
  - case_decide as Hin; rewrite arrayIndexOf_not_elem_of in Hin.
    + rewrite IH.
      2:{ apply NoDup_app. split_and!; [done| |apply NoDup_singleton].
          intros x Hx ->%list_elem_of_singleton. done. }
      rewrite filter_cons_True by done. rewrite <-app_assoc. simpl. do 2 f_equal.
      rewrite list_filter_filter. apply list_filter_iff. intros x.
      rewrite not_elem_of_app, list_elem_of_singleton. naive_solver.
    + apply dec_stable in Hin. rewrite IH by done.
      rewrite filter_cons_False by naive_solver. f_equal.
      rewrite list_filter_filter. apply list_filter_iff. intros x. naive_solver.
Qed.

Lemma firstSeen_elem_of l x : x ∈ firstSeen l ↔ x ∈ l.
Proof.
  induction l as [|y l IH]; simpl; [done|].
  rewrite !elem_of_cons, list_elem_of_filter, IH.
  destruct (decide (x = y)); naive_solver.
Qed.

Lemma firstSeen_NoDup l : NoDup (firstSeen l).
Proof.
  induction l as [|y l IH]; simpl; [constructor|].
  constructor; [|by apply NoDup_filter].
  rewrite list_elem_of_filter. naive_solver.
Qed.

Lemma getRelationMap_firstSeen fieldMap :
  getRelationMap fieldMap
  = firstSeen (relationOf <$> filter (λ field, indexOf field "." ≠ -1) fieldMap).
Proof.
  unfold getRelationMap.
  etrans; [apply (getRelationMap_fold _ []); constructor|]. simpl.
  generalize (firstSeen (relationOf <$> filter (λ field, indexOf field "." ≠ -1) fieldMap)).
  intros l. induction l as [|x l IH]; [done|].
  rewrite filter_cons_True by apply not_elem_of_nil. by rewrite IH.
Qed.

Lemma getRelationMap_NoDup fieldMap : NoDup (getRelationMap fieldMap).
Proof. rewrite getRelationMap_firstSeen. apply firstSeen_NoDup. Qed.

Lemma getRelationMap_elem_of fieldMap r :
  r ∈ getRelationMap fieldMap ↔
  ∃ field, field ∈ fieldMap ∧ indexOf field "." ≠ -1 ∧ r = relationOf field.
Proof.
  rewrite getRelationMap_firstSeen, firstSeen_elem_of, list_elem_of_fmap.
  setoid_rewrite list_elem_of_filter. naive_solver.
Qed.

(** ** sanitizeFieldMap *)

Section Sanitize.

Lemma deleteElement_twice key (map : sparseArray) :
  deleteElement key (deleteElement key map) = deleteElement key map.
Proof. unfold deleteElement. apply list_insert_insert_eq. Qed.

Lemma lookup_deleteElement_ne key i (map : sparseArray) :
  i ≠ key → deleteElement key map !! i = map !! i.
Proof. intros Hne. unfold deleteElement. by apply list_lookup_insert_ne. Qed.

Lemma lookup_deleteElement_eq key (map : sparseArray) x :
  deleteElement key map !! key ≠ Some (Some x).
Proof.
  unfold deleteElement. destruct (decide (key < length map)%nat).
  - by rewrite list_lookup_insert_eq.
  - rewrite list_insert_ge by lia. rewrite lookup_ge_None_2; [done|lia].
Qed.

Lemma inner_forEach key field (map : sparseArray) :
  (subsumed map key field ∧ forEach (innerCallback key field) map = deleteElement key map)
  ∨ (¬ subsumed map key field ∧ forEach (innerCallback key field) map = map).
Proof.
  unfold forEach.
  pose (hitBelow (k : nat) := ∃ otherKey otherField,
          (otherKey < k)%nat ∧ otherKey ≠ key
          ∧ map !! otherKey = Some (Some otherField) ∧ occurs field otherField).
  cut ((hitBelow (length map) ∧
        fold_left (λ m k, match m !! k with
                          | Some (Some f) => innerCallback key field f k m
                          | _ => m
                          end) (seq 0 (length map)) map = deleteElement key map)
       ∨ (¬ hitBelow (length map) ∧
        fold_left (λ m k, match m !! k with
                          | Some (Some f) => innerCallback key field f k m
                          | _ => m
                          end) (seq 0 (length map)) map = map)).
  { intros [[(ok & o & ? & ? & ? & ?) ->]|[Hno ->]]; [left|right]; split; try done.
    - by exists ok, o.
    - intros (ok & o & ? & Hl & ?). apply Hno. exists ok, o. split_and!; try done.
      by apply lookup_lt_Some in Hl. }
  apply (fold_left_seq_ind
           (λ k s, (hitBelow k ∧ s = deleteElement key map) ∨ (¬ hitBelow k ∧ s = map))).
  { right. split; [|done]. intros (ok & ? & ? & _). lia. }
  intros k s Hk [[(ok & o & ? & ? & ? & ?) ->]|[Hno ->]].
  - left. split; [exists ok, o; split_and!; try done; lia|].
    destruct (decide (k = key)) as [->|Hne].
    + destruct (deleteElement key map !! key) as [[x|]|] eqn:Hx; try done.
      by apply lookup_deleteElement_eq in Hx.
    + rewrite lookup_deleteElement_ne by done.
      destruct (map !! k) as [[x|]|]; try done.
      unfold innerCallback. rewrite decide_False by done.
      case_decide; [apply deleteElement_twice|done].
  - destruct (map !! k) as [[x|]|] eqn:Hx.
    + unfold innerCallback. destruct (decide (k = key)) as [->|Hne].
      * right. split; [|done]. intros (ok & o & Hlt & ? & ? & ?).
        apply Hno. exists ok, o. split_and!; try done. lia.
      * case_decide as Hocc.
        -- left. split; [|done]. apply indexOf_occurs in Hocc.
           exists k, x. split_and!; try done. lia.
        -- right. split; [|done]. intros (ok & o & Hlt & ? & Hok & Ho).
           destruct (decide (ok = k)) as [->|].
           ++ rewrite Hx in Hok. simplify_eq. by apply indexOf_occurs in Ho.
           ++ apply Hno. exists ok, o. split_and!; try done. lia.
    + right. split; [|done]. intros (ok & o & Hlt & ? & Hok & Ho).
      destruct (decide (ok = k)) as [->|]; [congruence|].
      apply Hno. exists ok, o. split_and!; try done. lia.
    + right. split; [|done]. intros (ok & o & Hlt & ? & Hok & Ho).
      destruct (decide (ok = k)) as [->|]; [congruence|].
      apply Hno. exists ok, o. split_and!; try done. lia.
Qed.

Lemma sanitizeFieldMap_unfold fieldMap :
  sanitizeFieldMap fieldMap = omap id (sanitizeLoop fieldMap).
Proof. reflexivity. Qed.

Lemma sanitizeInv_init l : sanitizeInv l 0 (Some <$> l).
Proof.
  split.
  - by rewrite length_fmap.
  - intros i x. rewrite list_lookup_fmap. destruct (l !! i); naive_solver.
  - intros i x _ Hi. by rewrite list_lookup_fmap, Hi.
  - intros; lia.
  - intros j y Hj. exists j, y. rewrite list_lookup_fmap, Hj.
    split; [done|apply occurs_refl].
Qed.

Lemma sanitizeInv_step l k m :
  (k < length l)%nat → sanitizeInv l k m →
  sanitizeInv l (S k)
    match m !! k with
    | Some (Some field) => forEach (innerCallback k field) m
    | _ => m
    end.
Proof.
  intros Hk [Hlen Horig Hpend Hkept Hcover].
  destruct (lookup_lt_is_Some_2 l k Hk) as [x Hx].
  rewrite (Hpend k x) by done.
  destruct (inner_forEach k x m) as [[(ok & o & Hne & Hok & Hocc) ->]|[Hno ->]].
  - split.
    + unfold deleteElement. by rewrite length_insert.
    + intros i y Hi. destruct (decide (i = k)) as [->|].
      * by apply lookup_deleteElement_eq in Hi.
      * rewrite lookup_deleteElement_ne in Hi by done. by apply Horig.
    + intros i y Hi Hl. rewrite lookup_deleteElement_ne by lia. apply Hpend; [lia|done].
    + intros i j y z Hi Hij Hy Hz.
      destruct (decide (i = k)) as [->|]; [by apply lookup_deleteElement_eq in Hy|].
      destruct (decide (j = k)) as [->|]; [by apply lookup_deleteElement_eq in Hz|].
      rewrite lookup_deleteElement_ne in Hy, Hz by done.
      apply (Hkept i j); [lia|done..].
    + intros j y Hj. destruct (Hcover j y Hj) as (j' & y' & Hj' & Hyy').
      destruct (decide (j' = k)) as [->|].
      * exists ok, o. rewrite lookup_deleteElement_ne by done. split; [done|].
        rewrite (Hpend k x) in Hj' by done. simplify_eq.
        by eapply occurs_trans.
      * exists j', y'. by rewrite lookup_deleteElement_ne.
  - split; try done.
    + intros i y Hi Hl. apply Hpend; [lia|done].
    + intros i j y z Hi Hij Hy Hz. destruct (decide (i = k)) as [->|].
      * rewrite (Hpend k x) in Hy by done. simplify_eq.
        intros Hocc. apply Hno. by exists j, z.
      * apply (Hkept i j); [lia|done..].
Qed.

Lemma sanitizeLoop_inv l : sanitizeInv l (length l) (sanitizeLoop l).
Proof.
  unfold sanitizeLoop, forEach. rewrite length_fmap.
  apply (fold_left_seq_ind (sanitizeInv l)); [apply sanitizeInv_init|].
  intros k s Hk Hinv. by apply sanitizeInv_step.
Qed.

Lemma elem_of_omap_id (m : sparseArray) x :
  x ∈ omap id m ↔ ∃ i, m !! i = Some (Some x).
Proof.
  rewrite list_elem_of_omap. split.
  - intros (c & Hc & Heq). simpl in Heq. subst c.
    by apply list_elem_of_lookup in Hc.
  - intros [i Hi]. exists (Some x). split; [|done].
    apply list_elem_of_lookup. eauto.
Qed.

Lemma omap_id_sublist (m : sparseArray) (l : list string) :
  length m = length l →
  (∀ i x, m !! i = Some (Some x) → l !! i = Some x) →
  omap id m `sublist_of` l.
Proof.
  revert l. induction m as [|c m IH]; intros l Hlen Hm.
  - apply sublist_nil_l.
  - destruct l as [|y l]; [done|]. simpl in Hlen.
    assert (omap id m `sublist_of` l) as Hsub.
    { apply IH; [lia|]. intros i x Hi. by apply (Hm (S i) x). }
    destruct c as [x|]; simpl.
    + pose proof (Hm 0%nat x eq_refl) as Hx. simpl in Hx. simplify_eq.
      by apply sublist_skip.
    + by apply sublist_cons.
Qed.

Lemma omap_id_NoDup (m : sparseArray) :
  (∀ i j x, i ≠ j → m !! i = Some (Some x) → m !! j = Some (Some x) → False) →
  NoDup (omap id m).
Proof.
  induction m as [|c m IH]; intros Hm; [constructor|].
  assert (NoDup (omap id m)) as Hnd.
  { apply IH. intros i j x Hij Hi Hj. by apply (Hm (S i) (S j) x); [lia|..]. }
  destruct c as [x|]; simpl; [|done].
  constructor; [|done]. rewrite elem_of_omap_id. intros [j Hj].
  by apply (Hm 0%nat (S j) x).
Qed.

End Sanitize.

(** C3. For every input list, [sanitizeFieldMap] returns a subsequence of the
    input, in input order, without duplicate elements. A path [P] of the
    input is dropped when a different path [Q] of the input contains it as a
    literal substring, and it survives otherwise; of equal paths exactly one
    occurrence survives, so at most one. *)
Theorem sanitizeFieldMap_spec (fieldMap : list string) :
  sanitizeFieldMap fieldMap `sublist_of` fieldMap
  ∧ NoDup (sanitizeFieldMap fieldMap)
  ∧ ∀ P, P ∈ sanitizeFieldMap fieldMap ↔
         P ∈ fieldMap ∧ ∀ Q, Q ∈ fieldMap → occurs P Q → Q = P.
Proof.
  rewrite sanitizeFieldMap_unfold.
  destruct (sanitizeLoop_inv fieldMap) as [Hlen Horig _ Hkept Hcover].
  assert (∀ i x, sanitizeLoop fieldMap !! i = Some (Some x) →
                 (i < length fieldMap)%nat) as Hlt.
  { intros i x Hi%lookup_lt_Some. lia. }
  split_and!.
  - by apply omap_id_sublist.
  - apply omap_id_NoDup. intros i j x Hij Hi Hj.
    apply (Hkept i j x x); eauto using occurs_refl.
  - intros P. rewrite elem_of_omap_id. split.
    + intros [i Hi]. split; [eapply list_elem_of_lookup_2, Horig, Hi|].
      intros Q [j Hj]%list_elem_of_lookup HPQ.
      destruct (Hcover j Q Hj) as (j' & Q' & Hj' & HQQ').
      destruct (decide (i = j')) as [->|Hne].
      * simplify_eq. by apply occurs_antisym.
      * exfalso. apply (Hkept i j' P Q'); eauto using occurs_trans.
    + intros [[j Hj]%list_elem_of_lookup Hmax].
      destruct (Hcover j P Hj) as (j' & Q' & Hj' & HPQ').
      exists j'. rewrite Hj'. do 2 f_equal. apply Hmax; [|done].
      eapply list_elem_of_lookup_2, Horig, Hj'.
Qed.

(** C6. For every input list, [getRelationMap] returns, without duplicates and
    in first-seen order, the substring before the last ['.'] of every input
    path that contains a ['.']; paths without one contribute nothing. For the
    four paths of the test the result is ["store"; "store.location"]. *)
Theorem getRelationMap_spec (fieldMap : list string) :
  NoDup (getRelationMap fieldMap)
  ∧ getRelationMap fieldMap
    = firstSeen (relationOf <$> filter (λ field, indexOf field "." ≠ -1) fieldMap)
  ∧ (∀ r, r ∈ getRelationMap fieldMap ↔
          ∃ field last, field ∈ fieldMap ∧ field = r +:+ "." +:+ last
                        ∧ ¬ occurs "." last)
  ∧ getRelationMap
      ["store.name"; "store.location.streetName"; "store.id"; "store.location.city"]
    = ["store"; "store.location"].
Proof.
  split_and!.
  - apply getRelationMap_NoDup.
  - apply getRelationMap_firstSeen.
  - intros r. rewrite getRelationMap_elem_of. split.
    + intros (field & Hin & Hdot & ->).
      destruct (relationOf_spec field Hdot) as (last & Heq & Hlast).
      by exists field, last.
    + intros (field & last & Hin & Heq & Hlast). exists field. split_and!.
      * done.
      * apply indexOf_occurs. by exists r, last.
      * symmetry. by eapply relationOf_unique.
  - reflexivity.
Qed.

(** ** Facts about objects *)

Section ObjectFacts.
Context {V : Type}.
Implicit Types (o : JsObject.object V) (k : string) (v : V).

Lemma get_Some_elem_of o k v : JsObject.get o k = Some v → (k, v) ∈ o.
Proof.
  induction o as [|[k' v'] o IH]; simpl; [done|].
  case_decide as Hk; [intros [= ->]; subst; apply list_elem_of_here|].
  intros Hg. apply list_elem_of_further. by apply IH.
Qed.

Lemma get_None o k : JsObject.get o k = None ↔ k ∉ o.*1.
Proof.
  induction o as [|[k' v'] o IH]; simpl.
  - split; [intros _; apply not_elem_of_nil|done].
  - rewrite not_elem_of_cons. case_decide; naive_solver.
Qed.

Lemma get_is_Some o k : is_Some (JsObject.get o k) ↔ k ∈ o.*1.
Proof.
  rewrite <-not_eq_None_Some, get_None. split; [apply dec_stable|tauto].
Qed.

Lemma get_app o o' k :
  JsObject.get (o ++ o') k
  = match JsObject.get o k with Some v => Some v | None => JsObject.get o' k end.
Proof.
  induction o as [|[k' v'] o IH]; simpl; [done|]. by case_decide.
Qed.

(** A binding found by [get] is the first entry with that key. *)
Lemma get_Some_split o k v :
  JsObject.get o k = Some v →
  ∃ before after, o = before ++ (k, v) :: after ∧ k ∉ before.*1.
Proof.
  induction o as [|[k' v'] o IH]; simpl; [done|].
  case_decide as Hk.
  - intros [= ->]. subst. exists [], o. split; [done|apply not_elem_of_nil].
  - intros (before & after & -> & Hb)%IH. exists ((k', v') :: before), after.
    split; [done|]. simpl. rewrite not_elem_of_cons. done.
Qed.

Lemma get_middle before k v after :
  k ∉ before.*1 → JsObject.get (before ++ (k, v) :: after) k = Some v.
Proof.
  intros Hb%get_None. rewrite get_app, Hb. simpl. by rewrite decide_True.
Qed.

Lemma assign_None o k v : k ∉ o.*1 → JsObject.assign o k v = None.
Proof.
  induction o as [|[k' v'] o IH]; simpl; [done|].
  rewrite not_elem_of_cons. intros [Hne Hk]. rewrite decide_False by done.
  by rewrite IH.
Qed.

Lemma set_fresh o k v :
  k ≠ "__proto__" → k ∉ o.*1 → JsObject.set o k v = o ++ [(k, v)].
Proof.
  intros Hp Hk. unfold JsObject.set. rewrite decide_False by done.
  by rewrite assign_None.
Qed.

Lemma set_proto o v : JsObject.set o "__proto__" v = o.
Proof. unfold JsObject.set. by rewrite decide_True. Qed.

Lemma elem_of_insertByIndex e e' l :
  e ∈ JsObject.insertByIndex e' l ↔ e = e' ∨ e ∈ l.
Proof.
  induction l as [|x l IH]; simpl.
  - rewrite list_elem_of_singleton, elem_of_nil. tauto.
  - destruct (e'.1 <=? x.1)%N; rewrite !elem_of_cons; [done|].
    rewrite IH. tauto.
Qed.

Lemma elem_of_sortByIndex e l : e ∈ JsObject.sortByIndex l ↔ e ∈ l.
Proof.
  induction l as [|x l IH]; simpl; [done|].
  by rewrite elem_of_insertByIndex, elem_of_cons, IH.
Qed.

(** [Object.keys] lists exactly the own keys. *)
Lemma elem_of_keys o k : k ∈ JsObject.keys o ↔ k ∈ o.*1.
Proof.
  unfold JsObject.keys. rewrite elem_of_app, list_elem_of_filter, list_elem_of_fmap.
  split.
  - intros [([n k'] & -> & Hk)|[_ Hk]]; [|done].
    apply elem_of_sortByIndex, list_elem_of_omap in Hk as (k'' & Hk'' & Heq).
    destruct (JsObject.arrayIndex k''); by simplify_eq/=.
  - intros Hk. destruct (JsObject.arrayIndex k) as [n|] eqn:Hn; [left|by right].
    exists (n, k). split; [done|].
    apply elem_of_sortByIndex, list_elem_of_omap. exists k. by rewrite Hn.
Qed.

(** Without array indices among the keys, [Object.keys] lists the keys in
    creation order. *)
Lemma keys_creation_order o :
  (∀ k, k ∈ o.*1 → JsObject.arrayIndex k = None) → JsObject.keys o = o.*1.
Proof.
  unfold JsObject.keys. generalize (o.*1). intros ks Hks.
  assert (omap (λ k, (λ n, (n, k)) <$> JsObject.arrayIndex k) ks = []) as ->.
  { induction ks as [|k ks IH]; [done|]. simpl.
    rewrite (Hks k) by left. simpl. apply IH.
    intros k' Hk'. apply Hks. by right. }
  simpl. induction ks as [|k ks IH]; [done|].
  rewrite filter_cons_True by (apply Hks; left). f_equal. apply IH.
  intros k' Hk'. apply Hks. by right.
Qed.

End ObjectFacts.

(** ** Facts about [replace] *)

Section ReplaceFacts.
Implicit Types s k a pre post : string.

Lemma firstIndex_prefix pat s : String.prefix pat s = true → firstIndex pat s = Some 0%nat.
Proof.
  intros Hp. destruct s; [rewrite firstIndex_nil|rewrite firstIndex_cons]; by rewrite Hp.
Qed.

(** The replacement text is taken literally when it has no [$]. *)
Lemma getSubstitution_plain matched pre post a :
  indexOf a "$" = -1 → getSubstitution matched pre post a = a.
Proof.
  rewrite indexOf_not_occurs. induction a as [|c a IH]; intros Hno; [done|].
  assert (c ≠ "$"%char) as Hc.
  { intros ->. apply Hno. by exists "", a. }
  assert (getSubstitution matched pre post (String c a)
          = String c (getSubstitution matched pre post a)) as ->.
  { destruct c as [[] [] [] [] [] [] [] []]; try reflexivity. by destruct Hc. }
  rewrite IH; [done|]. intros (p & q & ->). apply Hno. by exists (String c p), q.
Qed.

(** [replace] rewrites the first occurrence. *)
Lemma replace_first s k a pos :
  firstIndex k s = Some pos →
  ∃ pre post,
    s = pre +:+ k +:+ post ∧ String.length pre = pos
    ∧ replace s k a = pre +:+ getSubstitution k pre post a +:+ post.
Proof.
  intros Hpos. destruct (firstIndex_Some _ _ _ Hpos) as [(pre & post & -> & Hlen) _].
  exists pre, post. split_and!; try done.
  unfold replace. rewrite Hpos, <-Hlen, substring_app.
  by rewrite <-slength_app, <-(sapp_assoc pre k post), dropString_app.
Qed.

Lemma replace_absent s k a : indexOf s k = -1 → replace s k a = s.
Proof.
  unfold indexOf, replace. destruct (firstIndex k s); [lia|done].
Qed.

Lemma replace_prefix k rest a :
  replace (k +:+ rest) k a = getSubstitution k "" rest a +:+ rest.
Proof.
  assert (firstIndex k (k +:+ rest) = Some 0%nat) as Hpos.
  { apply firstIndex_prefix, prefix_true_iff. eauto. }
  destruct (replace_first _ _ a _ Hpos) as (pre & post & Heq & Hlen & ->).
  apply length_zero in Hlen as ->. rewrite sapp_nil_l in *.
  by apply (inj (String.app k)) in Heq as <-.
Qed.

Lemma sapp_not_nil_r s t : t ≠ "" → s +:+ t ≠ "".
Proof.
  intros Ht Heq. apply (f_equal String.length) in Heq.
  rewrite slength_app in Heq. simpl in Heq. destruct t; [done|]. simpl in Heq. lia.
Qed.

End ReplaceFacts.

(** ** getUniqueRelationMap *)

Section UniqueRelationMapFacts.
Variable makeId : nat → string.
Implicit Types (urm before after : UniqueRelationMap) (R p : string)
  (b : RelationBinding).

(** What the loop over the keys of [getAliasedTargetRelation] leaves in
    [targetRel]. *)
Lemma aliased_fold urm R p ks acc :
  fold_left
    (λ targetRel relation,
       if decide (relation = p) then
         match JsObject.get urm relation with
         | Some b => replace R p (uniqueAlias b)
         | None => targetRel
         end
       else targetRel) ks acc
  = if decide (p ∈ ks) then
      match JsObject.get urm p with
      | Some b => replace R p (uniqueAlias b)
      | None => acc
      end
    else acc.
Proof.
  revert acc. induction ks as [|k ks IH]; intros acc; simpl.
  - done.
  - rewrite IH. destruct (decide (k = p)) as [->|Hne].
    + rewrite (decide_True (P := p ∈ p :: ks)) by left.
      destruct (JsObject.get urm p); by case_decide.
    + destruct (decide (p ∈ ks)) as [Hin|Hin].
      * by rewrite decide_True by by right.
      * rewrite decide_False; [done|]. rewrite not_elem_of_cons. naive_solver.
Qed.

Lemma getAliasedTargetRelation_root urm R :
  indexOf R "." = -1 → getAliasedTargetRelation urm R = R.
Proof. intros Hdot. unfold getAliasedTargetRelation. by rewrite decide_True. Qed.

Lemma getAliasedTargetRelation_nested urm R :
  indexOf R "." ≠ -1 →
  getAliasedTargetRelation urm R
  = match JsObject.get urm (relationOf R) with
    | Some b => replace R (relationOf R) (uniqueAlias b)
    | None => R
    end.
Proof.
  intros Hdot. unfold getAliasedTargetRelation. rewrite decide_False by done.
  fold (relationOf R). rewrite aliased_fold.
  destruct (JsObject.get urm (relationOf R)) as [b|] eqn:Hget.
  - rewrite (decide_True (P := relationOf R ∈ JsObject.keys urm))
      by (apply elem_of_keys, get_is_Some; eauto).
    rewrite decide_False; [done|].
    destruct (relationOf_spec R Hdot) as (last & Heq & _).
    rewrite Heq at 1. rewrite replace_prefix.
    apply sapp_not_nil_r. by rewrite sapp_cons.
  - by destruct (decide (relationOf R ∈ JsObject.keys urm)).
Qed.

Lemma getUniqueRelationMap_unfold fieldMap :
  getUniqueRelationMap makeId fieldMap
  = (fold_left (urmStep makeId) (getRelationMap fieldMap) ([], 0%nat)).1.
Proof. reflexivity. Qed.

(** The loop appends one binding per relation path (but for [__proto__]);
    each is computed from the bindings before it and takes the token of
    its turn. *)
Lemma urm_loop rels urm0 d0 :
  NoDup rels → (∀ r, r ∈ rels → r ∉ urm0.*1) →
  ∃ ext,
    (fold_left (urmStep makeId) rels (urm0, d0)).1 = urm0 ++ ext
    ∧ ext.*1 = filter (λ r, r ≠ "__proto__") rels
    ∧ (uniqueAlias <$> ext.*2) `sublist_of` (makeId <$> seq d0 (length rels))
    ∧ ∀ before R b after, ext = before ++ (R, b) :: after →
        targetRelation b = R
        ∧ aliasedTargetRelation b = getAliasedTargetRelation (urm0 ++ before) R.
Proof.
  revert urm0 d0. induction rels as [|r rels IH]; intros urm0 d0 Hnd Hfresh.
  { exists []. rewrite app_nil_r. split_and!; try done.
    intros [|??] ??? Heq; discriminate Heq. }
  apply NoDup_cons in Hnd as [Hr Hnd]. simpl.
  destruct (decide (r = "__proto__")) as [->|Hproto].
  - rewrite set_proto.
    destruct (IH urm0 (S d0) Hnd) as (ext & -> & Hkeys & Hids & Hext).
    { intros r' Hr'. apply Hfresh. by right. }
    exists ext. split_and!; [done| |by apply sublist_cons|done].
    by rewrite filter_cons_False by naive_solver.
  - rewrite set_fresh by (try done; apply Hfresh; left).
    match goal with |- context [urm0 ++ [(r, ?b)]] => set (br := b) end.
    destruct (IH (urm0 ++ [(r, br)]) (S d0) Hnd) as (ext & -> & Hkeys & Hids & Hext).
    { intros r' Hr'. rewrite fmap_app, not_elem_of_app. split.
      - apply Hfresh. by right.
      - simpl. rewrite list_elem_of_singleton. intros ->. done. }
    exists ((r, br) :: ext). split_and!.
    + by rewrite <-app_assoc.
    + rewrite filter_cons_True by done. rewrite fmap_cons. by f_equal.
    + simpl. by apply sublist_skip.
    + intros [|[R' b'] before] R b after Heq; simplify_eq/=.
      * by rewrite app_nil_r.
      * destruct (Hext before R b after eq_refl) as [-> ->].
        by rewrite <-app_assoc.
Qed.

(** The returned map, entry by entry. *)
Lemma getUniqueRelationMap_entries fieldMap :
  let urm := getUniqueRelationMap makeId fieldMap in
  urm.*1 = filter (λ r, r ≠ "__proto__") (getRelationMap fieldMap)
  ∧ (uniqueAlias <$> urm.*2)
      `sublist_of` (makeId <$> seq 0 (length (getRelationMap fieldMap)))
  ∧ ∀ before R b after, urm = before ++ (R, b) :: after →
      targetRelation b = R
      ∧ aliasedTargetRelation b = getAliasedTargetRelation before R.
Proof.
  simpl. rewrite getUniqueRelationMap_unfold.
  destruct (urm_loop (getRelationMap fieldMap) [] 0%nat) as (ext & -> & ? & ? & ?).
  - apply getRelationMap_NoDup.
  - intros r _. apply not_elem_of_nil.
  - done.
Qed.

Lemma getUniqueRelationMap_NoDup fieldMap :
  NoDup (getUniqueRelationMap makeId fieldMap).*1.
Proof.
  destruct (getUniqueRelationMap_entries fieldMap) as [-> _].
  apply NoDup_filter, getRelationMap_NoDup.
Qed.

End UniqueRelationMapFacts.

(** ** Calls on the query builder *)

Section QueryFacts.

Lemma afterCalls_nil q : afterCalls [] q = q.
Proof. destruct q. unfold afterCalls. simpl. by rewrite app_nil_r. Qed.

Lemma afterCalls_cons c cs q : afterCalls cs (recordCall c q) = afterCalls (c :: cs) q.
Proof. unfold afterCalls, recordCall. simpl. by rewrite <-app_assoc. Qed.

Lemma forEachQ_cons {A} (f : A → Query ()) x l q :
  forEachQ f (x :: l) q
  = match f x q with
    | Returned _ q' => forEachQ f l q'
    | Thrown c q' => Thrown c q'
    end.
Proof. reflexivity. Qed.

Lemma call_accepted c q :
  accepts q (calls q) c = true → call c q = Returned () (recordCall c q).
Proof. intros Hacc. unfold call. by rewrite Hacc. Qed.

Lemma call_refused c q :
  accepts q (calls q) c = false → call c q = Thrown c (recordCall c q).
Proof. intros Hacc. unfold call. by rewrite Hacc. Qed.

(** A sequence of calls either runs to its end, every call accepted, or
    stops at the first call the builder refuses. *)
Lemma forEachQ_call_outcome cs q :
  match forEachQ call cs q with
  | Returned _ q' =>
      q' = afterCalls cs q
      ∧ ∀ cs1 c cs2, cs = cs1 ++ c :: cs2 → accepts q (calls q ++ cs1) c = true
  | Thrown c q' =>
      ∃ cs1 cs2, cs = cs1 ++ c :: cs2 ∧ q' = afterCalls (cs1 ++ [c]) q
                 ∧ accepts q (calls q ++ cs1) c = false
  end.
Proof.
  revert q. induction cs as [|c cs IH]; intros q.
  - simpl. unfold ret. cbn beta. split; [by rewrite afterCalls_nil|].
    intros [|??] ?? Heq; discriminate Heq.
  - rewrite forEachQ_cons.
    destruct (accepts q (calls q) c) eqn:Hacc;
      [rewrite call_accepted by done|rewrite call_refused by done].
    + specialize (IH (recordCall c q)).
      destruct (forEachQ call cs (recordCall c q)) as [[] q'|c' q'].
      * destruct IH as [-> Hall]. split; [apply afterCalls_cons|].
        intros [|c1 cs1] c0 cs2 Heq; simplify_eq/=.
        -- by rewrite app_nil_r.
        -- specialize (Hall cs1 c0 cs2 eq_refl). simpl in Hall.
           by rewrite <-app_assoc in Hall.
      * destruct IH as (cs1 & cs2 & -> & -> & Hrej). exists (c :: cs1), cs2.
        split_and!; [done|apply afterCalls_cons|].
        simpl in Hrej. by rewrite <-app_assoc in Hrej.
    + exists [], cs. split_and!; [done|done|by rewrite app_nil_r].
Qed.

Lemma forEachQ_call_accepted cs q :
  (∀ cs' c, accepts q cs' c = true) →
  forEachQ call cs q = Returned () (afterCalls cs q).
Proof.
  intros Hacc. pose proof (forEachQ_call_outcome cs q) as Hout.
  destruct (forEachQ call cs q) as [[] q'|c q'].
  - by destruct Hout as [-> _].
  - destruct Hout as (cs1 & cs2 & _ & _ & Hrej). by rewrite Hacc in Hrej.
Qed.

Lemma joinRelationsToQuery_plan urm q :
  joinRelationsToQuery urm q = forEachQ call (joinPlan (alias q) urm) q.
Proof.
  unfold joinRelationsToQuery, joinPlan. generalize (JsObject.keys urm).
  intros ks. revert q. induction ks as [|k ks IH]; intros q; [done|].
  rewrite forEachQ_cons. simpl. destruct (joinCall (alias q) urm k) as [c|].
  - rewrite forEachQ_cons.
    destruct (accepts q (calls q) c) eqn:Hacc;
      [rewrite call_accepted by done|by rewrite call_refused by done].
    by rewrite IH.
  - by rewrite IH.
Qed.

Lemma forEachQ_app {A} (f : A → Query ()) l1 l2 q :
  forEachQ f (l1 ++ l2) q = (forEachQ f l1 ;;; forEachQ f l2) q.
Proof.
  revert q. induction l1 as [|x l1 IH]; intros q; [done|].
  rewrite <-app_comm_cons, !forEachQ_cons. unfold bind.
  rewrite forEachQ_cons. destruct (f x q); [|done]. apply IH.
Qed.

Lemma forEachQ_call_alias cs q :
  match forEachQ call cs q with
  | Returned _ q' | Thrown _ q' => alias q' = alias q
  end.
Proof.
  pose proof (forEachQ_call_outcome cs q) as Hout.
  destruct (forEachQ call cs q) as [[] q'|c q'].
  - by destruct Hout as [-> _].
  - by destruct Hout as (? & ? & _ & -> & _).
Qed.

Lemma mapGraph_plan makeId fieldMap entity q :
  mapGraph makeId fieldMap entity q
  = (forEachQ call (mapGraphPlan makeId fieldMap entity (alias q)) ;;;
     ret (getUniqueRelationMap makeId (sanitizeFieldMap fieldMap))) q.
Proof.
  unfold mapGraph, mapGraphPlan. cbn zeta.
  set (urm := getUniqueRelationMap makeId (sanitizeFieldMap fieldMap)).
  unfold bind at 1 4. rewrite forEachQ_cons.
  destruct (call (GetMetadata entity) q) as [[] q1|c q1] eqn:Hcall; [|done].
  assert (alias q1 = alias q) as Hq1.
  { unfold call in Hcall. by destruct (accepts q (calls q) _); simplify_eq. }
  rewrite forEachQ_app. unfold bind. rewrite joinRelationsToQuery_plan, Hq1.
  pose proof (forEachQ_call_alias (joinPlan (alias q) urm) q1) as Hal.
  destruct (forEachQ call (joinPlan (alias q) urm) q1) as [[] q2|c q2]; [|done].
  unfold assignSelectionToQuery. rewrite Hal, Hq1, forEachQ_cons.
  by destruct (call _ q2) as [[] ?|].
Qed.

End QueryFacts.

(** ** Auxiliary facts about lists *)

Lemma split_unique {A} (l1 l2 k1 k2 : list A) x :
  l1 ++ x :: l2 = k1 ++ x :: k2 → x ∉ l1 → x ∉ k1 → l1 = k1 ∧ l2 = k2.
Proof.
  revert k1. induction l1 as [|y l1 IH]; intros [|z k1] Heq Hl Hk.
  - by simplify_eq/=.
  - simplify_eq/=. exfalso. apply Hk. left.
  - simplify_eq/=. exfalso. apply Hl. left.
  - apply not_elem_of_cons in Hl as [_ Hl]. apply not_elem_of_cons in Hk as [_ Hk].
    injection Heq as -> Heq. by destruct (IH k1 Heq Hl Hk) as [-> ->].
Qed.

Lemma omap_total {A B} (f : A → option B) (l : list A) :
  (∀ x, x ∈ l → is_Some (f x)) → Forall2 (λ x y, f x = Some y) l (omap f l).
Proof.
  induction l as [|x l IH]; intros Hf; [constructor|].
  destruct (Hf x) as [y Hy]; [left|]. simpl. rewrite Hy. simpl.
  constructor; [done|]. apply IH. intros x' Hx'. apply Hf. by right.
Qed.

Lemma length_insertByIndex e l :
  length (JsObject.insertByIndex e l) = S (length l).
Proof.
  induction l as [|x l IH]; simpl; [done|].
  destruct (e.1 <=? x.1)%N; simpl; by rewrite ?IH.
Qed.

Lemma length_sortByIndex l : length (JsObject.sortByIndex l) = length l.
Proof.
  induction l as [|x l IH]; simpl; [done|]. by rewrite length_insertByIndex, IH.
Qed.

(** [Object.keys] lists every own property once. *)
Lemma length_keys {V} (o : JsObject.object V) : length (JsObject.keys o) = length o.
Proof.
  unfold JsObject.keys. rewrite length_app, length_fmap, length_sortByIndex.
  rewrite <-(length_fmap fst o). generalize (o.*1). intros ks.
  set (f := λ k : string, (λ n : N, (n, k)) <$> JsObject.arrayIndex k).
  induction ks as [|k ks IH]; [done|].
  change (omap f (k :: ks))
    with (match f k with Some y => y :: omap f ks | None => omap f ks end).
  unfold f at 1. destruct (JsObject.arrayIndex k) as [n|] eqn:Hn; simpl.
  - rewrite filter_cons_False by (by rewrite Hn). lia.
  - rewrite filter_cons_True by done. simpl. lia.
Qed.

Lemma fmap_split_keys {V} (before after : JsObject.object V) k v :
  (before ++ (k, v) :: after).*1 = before.*1 ++ k :: after.*1.
Proof. by rewrite fmap_app. Qed.

(** ** The claims about getUniqueRelationMap *)

(** C1, as stated, fails: the generator may return the same token twice, and
    then two bindings of one map carry the same [uniqueAlias]. *)
Lemma uniqueAlias_collision :
  ¬ NoDup (uniqueAlias <$> (getUniqueRelationMap constantIds ["a.x"; "b.y"]).*2).
Proof.
  assert (uniqueAlias <$> (getUniqueRelationMap constantIds ["a.x"; "b.y"]).*2
          = ["aaaaa"; "aaaaa"]) as -> by reflexivity.
  intros [Hin _]%NoDup_cons. apply Hin. left.
Qed.

(** C1, amended. In every call of [getUniqueRelationMap] the aliases of the
    returned map are, in the order the bindings were made, a subsequence of
    the tokens the generator returned during the call, one token being drawn
    per relation path; so they are pairwise distinct whenever those tokens
    are. *)
Theorem uniqueAlias_distinct (makeId : nat → string) (fieldMap : list string) :
  (uniqueAlias <$> (getUniqueRelationMap makeId fieldMap).*2)
    `sublist_of` (makeId <$> seq 0 (length (getRelationMap fieldMap)))
  ∧ (NoDup (makeId <$> seq 0 (length (getRelationMap fieldMap))) →
     NoDup (uniqueAlias <$> (getUniqueRelationMap makeId fieldMap).*2)).
Proof.
  destruct (getUniqueRelationMap_entries makeId fieldMap) as (_ & Hsub & _).
  split; [done|]. intros Hnd. by eapply sublist_NoDup.
Qed.

Lemma uniqueAlias_distinct_witness :
  NoDup (uniqueAlias <$> (getUniqueRelationMap sampleIds
           ["store.name"; "store.location.streetName"; "store.id";
            "store.location.city"]).*2).
Proof.
  apply (proj2 (uniqueAlias_distinct sampleIds
                  ["store.name"; "store.location.streetName"; "store.id";
                   "store.location.city"])).
  apply (bool_decide_unpack _). vm_compute. exact I.
Defined.

(** C4. In every map [getUniqueRelationMap] returns, the [targetRelation] of
    each binding is its key; when a key [R] is [p.last], [last] being its
    final segment, and the parent [p] is an earlier key, the
    [aliasedTargetRelation] of [R] is [R] with the prefix [p] replaced by the
    [uniqueAlias] of [p] (a generator token, which has no [$]), so it begins
    with that alias and a dot. For the four paths of the test the map has
    exactly two entries. *)
Theorem getUniqueRelationMap_chain (makeId : nat → string) (fieldMap : list string) :
  let urm := getUniqueRelationMap makeId fieldMap in
  (∀ R b, (R, b) ∈ urm → targetRelation b = R)
  ∧ (∀ before R b after p last bp,
       urm = before ++ (R, b) :: after →
       R = p +:+ "." +:+ last → ¬ occurs "." last →
       p ∈ before.*1 → JsObject.get urm p = Some bp →
       indexOf (uniqueAlias bp) "$" = -1 →
       aliasedTargetRelation b = uniqueAlias bp +:+ "." +:+ last
       ∧ String.prefix (uniqueAlias bp +:+ ".") (aliasedTargetRelation b) = true)
  ∧ length (getUniqueRelationMap makeId
              ["store.name"; "store.location.streetName"; "store.id";
               "store.location.city"]) = 2%nat.
Proof.
  cbn zeta. destruct (getUniqueRelationMap_entries makeId fieldMap) as (_ & _ & Hent).
  split_and!.
  - intros R b (before & after & Heq)%list_elem_of_split.
    by destruct (Hent _ _ _ _ Heq).
  - intros before R b after p last bp Heq HR Hlast Hp Hget Hplain.
    destruct (Hent _ _ _ _ Heq) as [_ Hatr].
    assert (indexOf R "." ≠ -1) as Hdot by (apply indexOf_occurs; by exists p, last).
    rewrite getAliasedTargetRelation_nested in Hatr by done.
    rewrite (relationOf_unique R p last) in Hatr by done.
    apply get_is_Some in Hp as [bp' Hbp'].
    assert (bp' = bp) as ->.
    { rewrite Heq, get_app, Hbp' in Hget. by simplify_eq. }
    rewrite Hbp', HR, replace_prefix, getSubstitution_plain in Hatr by done.
    split; [done|]. rewrite Hatr. apply prefix_true_iff. exists last.
    by rewrite sapp_assoc.
  - reflexivity.
Qed.

Lemma getUniqueRelationMap_chain_witness :
  ∃ b, JsObject.get (getUniqueRelationMap sampleIds
           ["store.name"; "store.location.streetName"; "store.id";
            "store.location.city"]) "store.location" = Some b
       ∧ aliasedTargetRelation b = "aaaaa.location".
Proof.
  eexists. split; [reflexivity|].
  pose proof (getUniqueRelationMap_chain sampleIds
    ["store.name"; "store.location.streetName"; "store.id"; "store.location.city"])
    as (_ & Hchain & _).
  refine (proj1 (Hchain [("store", _)] "store.location" _ [] "store" "location" _
                   eq_refl eq_refl _ _ eq_refl eq_refl)).
  - intros Hocc%indexOf_occurs. by vm_compute in Hocc.
  - left.
Defined.

(** The binding of the relation path at index [i] of the relation map, and
    the keys made before it. *)
Lemma getUniqueRelationMap_at (makeId : nat → string) (fieldMap : list string)
    (i : nat) (R : string) :
  getRelationMap fieldMap !! i = Some R → R ≠ "__proto__" →
  ∃ before b after,
    getUniqueRelationMap makeId fieldMap = before ++ (R, b) :: after
    ∧ before.*1
      = filter (λ r, r ≠ "__proto__") (take i (getRelationMap fieldMap)).
Proof.
  intros Hi HR.
  destruct (getUniqueRelationMap_entries makeId fieldMap) as (Hkeys & _ & _).
  pose proof (getRelationMap_NoDup fieldMap) as Hnd.
  assert (is_Some (JsObject.get (getUniqueRelationMap makeId fieldMap) R))
    as [b Hb].
  { apply get_is_Some. rewrite Hkeys. apply list_elem_of_filter.
    split; [done|]. by eapply list_elem_of_lookup_2. }
  apply get_Some_split in Hb as (before & after & Heq & Hnot).
  exists before, b, after. split; [done|].
  rewrite Heq, fmap_split_keys in Hkeys.
  rewrite <-(take_drop_middle _ _ _ Hi) in Hkeys at 1.
  rewrite <-(take_drop_middle _ _ _ Hi) in Hnd.
  rewrite filter_app, filter_cons_True in Hkeys by done.
  apply split_unique in Hkeys as [? _]; [done..|].
  intros [_ HRt]%list_elem_of_filter.
  apply NoDup_app in Hnd as (_ & Hdisj & _). apply (Hdisj R HRt). left.
Qed.

(** C7. Alias resolution does not fail. For every relation path [R] of the
    field map that is [p.last], whose parent [p] is not among the keys made
    before it (it is not an earlier relation path, or it is ["__proto__"],
    which is never a key), [getUniqueRelationMap] stores a binding for [R],
    and that binding has [aliasedTargetRelation] equal to [R], the full
    dotted path; the same holds of any binding of the returned map with no
    parent before it. And [mapGraph] raises nothing of its own: it returns
    the map whenever the builder lets its calls return, and otherwise passes
    on the exception of the call the builder refused. *)
Theorem alias_resolution_total (makeId : nat → string) (fieldMap : list string) :
  let urm := getUniqueRelationMap makeId fieldMap in
  (∀ i R p last,
     getRelationMap fieldMap !! i = Some R →
     R = p +:+ "." +:+ last → ¬ occurs "." last →
     p ∉ take i (getRelationMap fieldMap) ∨ p = "__proto__" →
     ∃ b, JsObject.get urm R = Some b
          ∧ targetRelation b = R ∧ aliasedTargetRelation b = R)
  ∧ (∀ before R b after p last,
       urm = before ++ (R, b) :: after →
       R = p +:+ "." +:+ last → ¬ occurs "." last → p ∉ before.*1 →
       JsObject.get urm R = Some b ∧ aliasedTargetRelation b = R)
  ∧ ∀ entity q,
      match mapGraph makeId fieldMap entity q with
      | Returned urm' _ =>
          urm' = getUniqueRelationMap makeId (sanitizeFieldMap fieldMap)
      | Thrown c q' =>
          ∃ cs, calls q' = calls q ++ cs ++ [c]
                ∧ accepts q (calls q ++ cs) c = false
      end
      ∧ ((∀ cs c, accepts q cs c = true) →
         ∃ q', mapGraph makeId fieldMap entity q
               = Returned (getUniqueRelationMap makeId (sanitizeFieldMap fieldMap)) q').
Proof.
  cbn zeta.
  assert (∀ before R b after p last,
            getUniqueRelationMap makeId fieldMap = before ++ (R, b) :: after →
            R = p +:+ "." +:+ last → ¬ occurs "." last → p ∉ before.*1 →
            JsObject.get (getUniqueRelationMap makeId fieldMap) R = Some b
            ∧ targetRelation b = R ∧ aliasedTargetRelation b = R) as Hfall.
  { intros before R b after p last Heq HR Hlast Hp.
    destruct (getUniqueRelationMap_entries makeId fieldMap) as (_ & _ & Hent).
    destruct (Hent _ _ _ _ Heq) as [Htr Hatr]. split_and!; [|done|].
    + pose proof (getUniqueRelationMap_NoDup makeId fieldMap) as Hnd.
      rewrite Heq in Hnd |- *. rewrite fmap_split_keys in Hnd.
      apply NoDup_app in Hnd as (_ & Hnot & _). apply get_middle.
      intros HR'. apply (Hnot R HR'). left.
    + assert (indexOf R "." ≠ -1) as Hdot by (apply indexOf_occurs; by exists p, last).
      rewrite getAliasedTargetRelation_nested in Hatr by done.
      rewrite (relationOf_unique R p last) in Hatr by done.
      apply get_None in Hp. by rewrite Hp in Hatr. }
  split_and!.
  - intros i R p last Hi HR Hlast Hp.
    assert (R ≠ "__proto__") as Hproto.
    { intros ->. apply (f_equal (λ s, indexOf s ".")) in HR.
      assert (indexOf (p +:+ "." +:+ last) "." ≠ -1) as Hdot
        by (apply indexOf_occurs; by exists p, last).
      rewrite <-HR in Hdot. by apply Hdot. }
    destruct (getUniqueRelationMap_at makeId fieldMap i R Hi Hproto)
      as (before & b & after & Heq & Hbefore).
    exists b. apply (Hfall before R b after p last); try done.
    rewrite Hbefore. intros [Hne Hin]%list_elem_of_filter. by destruct Hp.
  - intros before R b after p last Heq HR Hlast Hp.
    by destruct (Hfall before R b after p last) as (? & _ & ?).
  - intros entity q. rewrite mapGraph_plan. unfold bind. split.
    + pose proof (forEachQ_call_outcome
                    (mapGraphPlan makeId fieldMap entity (alias q)) q) as Hout.
      destruct (forEachQ call _ q) as [[] q'|c q']; [done|].
      destruct Hout as (cs1 & cs2 & _ & -> & Hrej). by exists cs1.
    + intros Hacc. rewrite forEachQ_call_accepted by done. unfold ret. eauto.
Qed.

Lemma alias_resolution_total_witness :
  ∃ b, JsObject.get (getUniqueRelationMap sampleIds ["store.id"; "a.b.c"]) "a.b"
       = Some b
       ∧ targetRelation b = "a.b" ∧ aliasedTargetRelation b = "a.b".
Proof.
  refine (proj1 (alias_resolution_total sampleIds ["store.id"; "a.b.c"])
            1%nat "a.b" "a" "b" eq_refl eq_refl _ _).
  - intros Hocc%indexOf_occurs. by vm_compute in Hocc.
  - left. apply (bool_decide_unpack _). vm_compute. exact I.
Defined.

(** C9. Two runs of [getUniqueRelationMap] on the same input, under any two
    token streams, return maps with the same keys in the same order and the
    same [targetRelation] values, chained alike: for each key, either both
    runs leave [aliasedTargetRelation] equal to [targetRelation], or both
    replace the same parent prefix [p], each by the [uniqueAlias] its own run
    gave to [p]. *)
Theorem getUniqueRelationMap_structure (makeId1 makeId2 : nat → string)
    (fieldMap : list string) :
  let urm1 := getUniqueRelationMap makeId1 fieldMap in
  let urm2 := getUniqueRelationMap makeId2 fieldMap in
  urm1.*1 = urm2.*1
  ∧ JsObject.keys urm1 = JsObject.keys urm2
  ∧ targetRelation <$> urm1.*2 = targetRelation <$> urm2.*2
  ∧ ∀ R b1 b2,
      JsObject.get urm1 R = Some b1 → JsObject.get urm2 R = Some b2 →
      targetRelation b1 = targetRelation b2
      ∧ ((aliasedTargetRelation b1 = targetRelation b1
          ∧ aliasedTargetRelation b2 = targetRelation b2)
         ∨ ∃ p bp1 bp2,
             p = relationOf R
             ∧ JsObject.get urm1 p = Some bp1 ∧ JsObject.get urm2 p = Some bp2
             ∧ aliasedTargetRelation b1 = replace R p (uniqueAlias bp1)
             ∧ aliasedTargetRelation b2 = replace R p (uniqueAlias bp2)).
Proof.
  cbn zeta.
  destruct (getUniqueRelationMap_entries makeId1 fieldMap) as (Hk1 & _ & Hent1).
  destruct (getUniqueRelationMap_entries makeId2 fieldMap) as (Hk2 & _ & Hent2).
  assert (∀ makeId,
            targetRelation <$> (getUniqueRelationMap makeId fieldMap).*2
            = (getUniqueRelationMap makeId fieldMap).*1) as Htr.
  { intros makeId.
    destruct (getUniqueRelationMap_entries makeId fieldMap) as (_ & _ & Hent).
    revert Hent. generalize (getUniqueRelationMap makeId fieldMap). intros urm.
    induction urm as [|[R b] urm IH] using rev_ind; intros Hent; [done|].
    rewrite !fmap_app. simpl. rewrite IH.
    - by destruct (Hent urm R b [] eq_refl) as [-> _].
    - intros before R' b' after ->.
      destruct (Hent before R' b' (after ++ [(R, b)])) as [? Hatr];
        [by rewrite <-app_assoc|]. done. }
  split_and!.
  - by rewrite Hk1, Hk2.
  - unfold JsObject.keys. by rewrite Hk1, Hk2.
  - by rewrite !Htr, Hk1, Hk2.
  - intros R b1 b2 (bf1 & af1 & Heq1 & Hbf1)%get_Some_split
                   (bf2 & af2 & Heq2 & Hbf2)%get_Some_split.
    destruct (Hent1 _ _ _ _ Heq1) as [Ht1 Ha1].
    destruct (Hent2 _ _ _ _ Heq2) as [Ht2 Ha2].
    split; [by rewrite Ht1, Ht2|].
    assert (bf1.*1 = bf2.*1) as Hbf.
    { pose proof Hk1 as Hkeys. rewrite <-Hk2 in Hkeys.
      rewrite Heq1, Heq2, !fmap_split_keys in Hkeys.
      by destruct (split_unique _ _ _ _ _ Hkeys Hbf1 Hbf2). }
    destruct (decide (indexOf R "." = -1)) as [Hroot|Hdot].
    { left. by rewrite Ha1, Ha2, Ht1, Ht2, !getAliasedTargetRelation_root. }
    rewrite getAliasedTargetRelation_nested in Ha1, Ha2 by done.
    destruct (JsObject.get bf1 (relationOf R)) as [bp1|] eqn:Hp1.
    + assert (is_Some (JsObject.get bf2 (relationOf R))) as [bp2 Hp2].
      { apply get_is_Some. rewrite <-Hbf. apply get_is_Some. eauto. }
      rewrite Hp2 in Ha2. right. exists (relationOf R), bp1, bp2.
      split_and!; [done| | |done..].
      * by rewrite Heq1, get_app, Hp1.
      * by rewrite Heq2, get_app, Hp2.
    + assert (JsObject.get bf2 (relationOf R) = None) as Hp2.
      { apply get_None. rewrite <-Hbf. by apply get_None. }
      rewrite Hp2 in Ha2. left. by rewrite Ha1, Ha2, Ht1, Ht2.
Qed.

Lemma getUniqueRelationMap_structure_witness :
  ∃ b1 b2,
    JsObject.get (getUniqueRelationMap sampleIds ["store.location.city"; "store.id"])
      "store.location" = Some b1
    ∧ JsObject.get (getUniqueRelationMap constantIds ["store.location.city"; "store.id"])
      "store.location" = Some b2
    ∧ targetRelation b1 = targetRelation b2.
Proof.
  do 2 eexists. split_and!; [reflexivity..|].
  pose proof (getUniqueRelationMap_structure sampleIds constantIds
                ["store.location.city"; "store.id"]) as (_ & _ & _ & Hchain).
  exact (proj1 (Hchain "store.location" _ _ eq_refl eq_refl)).
Defined.

(** ** The claims about the join and projection plans *)

#[global] Instance occurs_dec pat s : Decision (occurs pat s).
Proof.
  refine (cast_if (decide (indexOf s pat ≠ -1))); by rewrite <-indexOf_occurs.
Defined.

(** The test [s.indexOf(".") === -1] of the source against [occurs]. *)
Lemma dot_test {A} (s : string) (x y : A) :
  (if decide (indexOf s "." = -1) then x else y)
  = if decide (occurs "." s) then y else x.
Proof.
  destruct (decide (occurs "." s)) as [Hd|Hd].
  - rewrite decide_False; [done|]. by apply indexOf_occurs.
  - rewrite decide_True; [done|]. by apply indexOf_not_occurs.
Qed.

(** C5. [joinRelationsToQuery] issues one [leftJoinAndSelect] call for every
    binding of the map, in map order ([Object.keys]): for a key without a dot
    the target is the root alias concatenated with the binding's
    [targetRelation], for a key with a dot it is the binding's
    [aliasedTargetRelation]; either is bound to the binding's [uniqueAlias]. *)
Theorem joinRelationsToQuery_spec (urm : UniqueRelationMap) (q : SelectQueryBuilder) :
  ∃ plan,
    joinRelationsToQuery urm q = forEachQ call plan q
    ∧ length plan = length urm
    ∧ (∀ i relation, JsObject.keys urm !! i = Some relation →
         ∃ b, JsObject.get urm relation = Some b
              ∧ plan !! i = Some
                  (if decide (occurs "." relation)
                   then LeftJoinAndSelect (aliasedTargetRelation b) (uniqueAlias b)
                   else LeftJoinAndSelect (alias q +:+ targetRelation b)
                          (uniqueAlias b)))
    ∧ ((∀ cs c, accepts q cs c = true) →
       joinRelationsToQuery urm q = Returned () (afterCalls plan q)).
Proof.
  exists (joinPlan (alias q) urm).
  assert (Forall2 (λ k c, joinCall (alias q) urm k = Some c)
            (JsObject.keys urm) (joinPlan (alias q) urm)) as Hplan.
  { apply omap_total. intros k [b Hb]%elem_of_keys%get_is_Some.
    unfold joinCall. rewrite Hb. simpl. eauto. }
  split_and!.
  - apply joinRelationsToQuery_plan.
  - by rewrite <-(Forall2_length _ _ _ Hplan), length_keys.
  - intros i relation Hi.
    destruct (Forall2_lookup_l _ _ _ _ _ Hplan Hi) as (c & -> & Hc).
    unfold joinCall in Hc. destruct (JsObject.get urm relation) as [b|]; [|done].
    exists b. split; [done|]. simpl in Hc. simplify_eq. f_equal.
    apply dot_test.
  - intros Hacc. rewrite joinRelationsToQuery_plan. by apply forEachQ_call_accepted.
Qed.

Lemma joinRelationsToQuery_witness :
  ∃ plan,
    joinRelationsToQuery sampleUrm (freshQuery "order")
    = Returned () (afterCalls plan (freshQuery "order"))
    ∧ plan !! 1%nat = Some (LeftJoinAndSelect "orderstore" "bbbbb").
Proof.
  destruct (joinRelationsToQuery_spec sampleUrm (freshQuery "order"))
    as (plan & _ & _ & Hshape & Hrun).
  exists plan. split; [by apply Hrun|].
  destruct (Hshape 1%nat "store" eq_refl) as (b & Hb & ->).
  vm_compute in Hb. by simplify_eq.
Defined.

(** What the loop over the keys of [assignSelectionToQuery] leaves in [uf]. *)
Lemma select_fold (urm : UniqueRelationMap) (field : string) ks acc :
  (∀ k, k ∈ ks → is_Some (JsObject.get urm k)) →
  fold_left
    (λ uf relation,
       if decide (indexOf field relation ≠ -1) then
         match JsObject.get urm relation with
         | Some b => replace field relation (uniqueAlias b)
         | None => uf
         end
       else uf) ks acc
  = match last (filter (λ k, occurs k field) ks) with
    | Some k =>
        match JsObject.get urm k with
        | Some b => replace field k (uniqueAlias b)
        | None => acc
        end
    | None => acc
    end.
Proof.
  induction ks as [|k ks IH] using rev_ind; intros Hks; [done|].
  rewrite fold_left_app, filter_app. simpl.
  destruct (decide (indexOf field k ≠ -1)) as [Hocc|Hocc].
  - rewrite filter_cons_True by (by apply indexOf_occurs).
    rewrite filter_nil, last_snoc.
    destruct (Hks k) as [b ->]; [|done]. apply elem_of_app. right. left.
  - rewrite filter_cons_False by (by rewrite <-indexOf_occurs).
    rewrite filter_nil, app_nil_r. apply IH.
    intros k' Hk'. apply Hks, elem_of_app. by left.
Qed.

(** The projection of one path, for any map: the last key, in the order of
    [Object.keys], that occurs in the path decides. *)
Lemma selectField_last_key (rootAlias : string) (urm : UniqueRelationMap)
    (field : string) :
  selectField rootAlias urm field
  = let uf :=
      match last (filter (λ k, occurs k field) (JsObject.keys urm)) with
      | Some k =>
          match JsObject.get urm k with
          | Some b => replace field k (uniqueAlias b)
          | None => field
          end
      | None => field
      end in
    if decide (occurs "." uf) then uf else rootAlias +:+ "." +:+ uf.
Proof.
  unfold selectField. rewrite select_fold, dot_test; [done|].
  intros k Hk. by apply get_is_Some, elem_of_keys.
Qed.

(** C2. The projection handed to [query.select] has one entry per path, in
    path order. Each entry is computed from the original path: when some key
    of the map occurs in the path, the first occurrence of the last such key,
    in key insertion order, is replaced by that key's [uniqueAlias]; an entry
    that then contains no dot is prefixed with the root alias and a dot. The
    keys are relation paths, none of them an array index, and the aliases
    are generator tokens, without [$]. *)
Theorem assignSelectionToQuery_spec (fieldMap : list string)
    (urm : UniqueRelationMap) (q : SelectQueryBuilder) :
  (∀ k, k ∈ urm.*1 → JsObject.arrayIndex k = None) →
  (∀ k b, (k, b) ∈ urm → indexOf (uniqueAlias b) "$" = -1) →
  ∃ selection,
    assignSelectionToQuery fieldMap urm q = call (Select selection) q
    ∧ length selection = length fieldMap
    ∧ ∀ i field, fieldMap !! i = Some field →
        ∃ uf,
          match last (filter (λ k, occurs k field) urm.*1) with
          | None => uf = field
          | Some k =>
              ∃ b pre post,
                JsObject.get urm k = Some b
                ∧ field = pre +:+ k +:+ post
                ∧ (∀ pre' post', field = pre' +:+ k +:+ post' →
                     (String.length pre ≤ String.length pre')%nat)
                ∧ uf = pre +:+ uniqueAlias b +:+ post
          end
          ∧ selection !! i
            = Some (if decide (occurs "." uf) then uf
                    else alias q +:+ "." +:+ uf).
Proof.
  intros Hidx Hplain. exists (selectField (alias q) urm <$> fieldMap).
  split_and!; [done|by rewrite length_fmap|].
  intros i field Hi. rewrite list_lookup_fmap, Hi. simpl.
  rewrite selectField_last_key, (keys_creation_order urm Hidx). cbn zeta.
  destruct (last (filter (λ k, occurs k field) urm.*1)) as [k|] eqn:Hlast.
  - apply last_Some_elem_of, list_elem_of_filter in Hlast as [Hocc Hk].
    apply get_is_Some in Hk as [b Hb]. rewrite Hb.
    apply indexOf_occurs in Hocc. unfold indexOf in Hocc.
    destruct (firstIndex k field) as [pos|] eqn:Hpos; [|done].
    destruct (replace_first field k (uniqueAlias b) pos Hpos)
      as (pre & post & Hfield & Hlen & Hrep).
    rewrite getSubstitution_plain in Hrep
      by (eapply Hplain, get_Some_elem_of, Hb).
    exists (pre +:+ uniqueAlias b +:+ post). split.
    + exists b, pre, post. split_and!; try done.
      intros pre' post' Hfield'. rewrite Hlen.
      apply (firstIndex_Some _ _ _ Hpos). by exists pre', post'.
    + by rewrite Hrep.
  - by exists field.
Qed.

Lemma assignSelectionToQuery_witness :
  ∃ selection,
    assignSelectionToQuery ["store.location.city"; "store.id"; "total"] sampleUrm
      (freshQuery "order")
    = call (Select selection) (freshQuery "order")
    ∧ length selection = 3%nat.
Proof.
  destruct (assignSelectionToQuery_spec
              ["store.location.city"; "store.id"; "total"] sampleUrm
              (freshQuery "order")) as (selection & Hcall & Hlen & _).
  - apply Forall_forall. apply (bool_decide_unpack _). vm_compute. exact I.
  - intros k b Hin.
    assert (Forall (λ kb, indexOf (uniqueAlias kb.2) "$" = -1) sampleUrm) as Hall.
    { apply (bool_decide_unpack _). vm_compute. exact I. }
    apply (proj1 (Forall_forall _ _) Hall (k, b) Hin).
  - exists selection. by split.
Defined.

(** ** The claim about the empty field map *)

(** C8. On the empty field map [mapGraph] does two things to the builder and
    nothing else: the metadata lookup and one [select] with the empty list,
    no [leftJoinAndSelect]; it raises nothing of its own, and when the
    builder lets both calls return it returns the empty map. *)
Theorem mapGraph_empty (makeId : nat → string) (entity : Entity)
    (q : SelectQueryBuilder) :
  mapGraph makeId [] entity q
  = (call (GetMetadata entity) ;;; call (Select []) ;;; ret []) q
  ∧ (accepts q (calls q) (GetMetadata entity) = true →
     accepts q (calls q ++ [GetMetadata entity]) (Select []) = true →
     mapGraph makeId [] entity q
     = Returned [] (afterCalls [GetMetadata entity; Select []] q)).
Proof.
  assert (mapGraph makeId [] entity q
          = (call (GetMetadata entity) ;;; call (Select []) ;;; ret []) q) as Heq.
  { unfold mapGraph, bind. by destruct (call (GetMetadata entity) q) as [[] q'|c q']. }
  split; [done|]. intros Hmeta Hselect. rewrite Heq. unfold bind.
  rewrite call_accepted by done. rewrite call_accepted by done.
  unfold ret. f_equal. unfold afterCalls, recordCall. simpl. by rewrite <-app_assoc.
Qed.

Lemma mapGraph_empty_witness :
  mapGraph sampleIds [] "Order" (freshQuery "order")
  = Returned [] (afterCalls [GetMetadata "Order"; Select []] (freshQuery "order")).
Proof.
  apply (proj2 (mapGraph_empty sampleIds "Order" (freshQuery "order")));
    reflexivity.
Defined.

(** ** The claim about the caller's array *)

Section StoreFacts.
Implicit Types (σ : Store.store) (m : sparseArray).

Lemma read_last σ m : Store.read (length σ) (σ ++ [m]) = m.
Proof. unfold Store.read. by rewrite list_lookup_middle. Qed.

Lemma deleteAt_last σ m key :
  Store.deleteAt (length σ) key (σ ++ [m]) = σ ++ [deleteElement key m].
Proof.
  unfold Store.deleteAt. rewrite <-(Nat.add_0_r (length σ)) at 1.
  by rewrite alter_app_r.
Qed.

(** A loop over the newest array of the store, whose callback changes
    that array only, is the loop over the array itself. *)
Lemma forEach_last σ m callbackS callbackP :
  (∀ field key m', callbackS field key (σ ++ [m']) = σ ++ [callbackP field key m']) →
  Store.forEach (length σ) callbackS (σ ++ [m]) = σ ++ [forEach callbackP m].
Proof.
  intros Hcb. unfold Store.forEach, forEach. rewrite read_last.
  generalize (seq 0 (length m)). intros idx. revert m.
  induction idx as [|k idx IH]; intros m; [done|]. simpl.
  rewrite read_last. destruct (m !! k) as [[field|]|]; by rewrite ?Hcb, IH.
Qed.

Lemma sanitizeFieldMap_store fieldMap σ l :
  σ !! fieldMap = Some (Some <$> l) →
  Store.sanitizeFieldMap fieldMap σ
  = (S (length σ),
     σ ++ [sanitizeLoop l; Some <$> GraphSelectionMapper.sanitizeFieldMap l]).
Proof.
  intros Hl. unfold Store.sanitizeFieldMap, Store.alloc.
  assert (Store.read fieldMap σ = Some <$> l) as -> by (unfold Store.read; by rewrite Hl).
  rewrite (forEach_last σ _ _ (λ field key m, forEach (innerCallback key field) m)).
  - rewrite read_last, length_app. simpl. rewrite <-app_assoc. simpl.
    f_equal. lia.
  - intros field key m'.
    apply (forEach_last σ m' _ (innerCallback key field)).
    intros otherField otherKey m''. unfold innerCallback.
    repeat case_decide; try done. apply deleteAt_last.
Qed.

End StoreFacts.

(** C10. [sanitizeFieldMap] leaves the array it is given as it was: the
    deletions go to a copy, the result is a further new array, and no array
    that existed before the call is changed; the same holds of [mapGraph],
    which reaches the caller's array only through [sanitizeFieldMap]. *)
Theorem sanitizeFieldMap_frame (fieldMap : Store.ref) (σ : Store.store)
    (l : list string) :
  σ !! fieldMap = Some (Some <$> l) →
  (let out := Store.sanitizeFieldMap fieldMap σ in
   out.2 !! fieldMap = Some (Some <$> l)
   ∧ (∀ r, (r < length σ)%nat → out.2 !! r = σ !! r)
   ∧ out.1 ≠ fieldMap
   ∧ out.2 !! out.1 = Some (Some <$> GraphSelectionMapper.sanitizeFieldMap l))
  ∧ ∀ makeId entity q,
      let out := Store.mapGraph makeId fieldMap entity σ q in
      out.1 !! fieldMap = Some (Some <$> l)
      ∧ (∀ r, (r < length σ)%nat → out.1 !! r = σ !! r)
      ∧ out.2 = GraphSelectionMapper.mapGraph makeId l entity q.
Proof.
  intros Hl. pose proof (lookup_lt_Some _ _ _ Hl) as Hlt. split.
  - rewrite (sanitizeFieldMap_store _ _ _ Hl). simpl. split_and!.
    + by apply lookup_app_l_Some.
    + intros r Hr. by apply lookup_app_l.
    + lia.
    + by rewrite (lookup_app_r σ) by lia; rewrite Nat.sub_succ_l, Nat.sub_diag by lia.
  - intros makeId entity q. unfold Store.mapGraph, GraphSelectionMapper.mapGraph, bind.
    destruct (call (GetMetadata entity) q) as [[] q'|c q']; [|done].
    rewrite (sanitizeFieldMap_store _ _ _ Hl). simpl. split_and!.
    + by apply lookup_app_l_Some.
    + intros r Hr. by apply lookup_app_l.
    + assert (Store.read (S (length σ))
                (σ ++ [sanitizeLoop l; Some <$> GraphSelectionMapper.sanitizeFieldMap l])
              = Some <$> GraphSelectionMapper.sanitizeFieldMap l) as ->.
      { unfold Store.read.
        by rewrite (lookup_app_r σ) by lia; rewrite Nat.sub_succ_l, Nat.sub_diag by lia. }
      assert (∀ l' : list string, omap id (Some <$> l') = l') as ->; [|done].
      intros l'. induction l' as [|x l' IH]; [done|]. rewrite fmap_cons. simpl.
      f_equal. exact IH.
Qed.

Lemma sanitizeFieldMap_frame_witness :
  (Store.sanitizeFieldMap 0%nat [Some <$> testFieldMap]).2 !! 0%nat
  = Some (Some <$> testFieldMap).
Proof.
  exact (proj1 (proj1 (sanitizeFieldMap_frame 0%nat [Some <$> testFieldMap]
                         testFieldMap eq_refl))).
Defined.


(** * Further properties *)

(** ** sanitizeFieldMap, position by position *)

Section SanitizePositions.
Implicit Types (l : list string) (m : sparseArray).

(** An element the outer loop has gone past and kept is contained in no
    element after it. *)
Lemma sanitizeLoop_later l :
  ∀ i j x y, (i < j)%nat →
    sanitizeLoop l !! i = Some (Some x) → l !! j = Some y → ¬ occurs x y.
Proof.
  cut (sanitizeInv l (length l) (sanitizeLoop l)
       ∧ ∀ i j x y, (i < length l)%nat → (i < j)%nat →
           sanitizeLoop l !! i = Some (Some x) → l !! j = Some y → ¬ occurs x y).
  { intros [_ Hg] i j x y Hij Hi Hj. apply (Hg i j); try done.
    apply lookup_lt_Some in Hj. lia. }
  unfold sanitizeLoop, forEach. rewrite length_fmap.
  apply (fold_left_seq_ind
           (λ k m, sanitizeInv l k m
                   ∧ ∀ i j x y, (i < k)%nat → (i < j)%nat →
                       m !! i = Some (Some x) → l !! j = Some y → ¬ occurs x y)).
  { split; [apply sanitizeInv_init|]. intros; lia. }
  intros k m Hk [Hinv Hg]. split; [by apply sanitizeInv_step|].
  destruct (lookup_lt_is_Some_2 l k Hk) as [z Hz].
  rewrite (inv_pending _ _ _ Hinv k z) by done. cbn beta iota.
  change (fold_left _ (seq 0 (length m)) m) with (forEach (innerCallback k z) m).
  destruct (inner_forEach k z m) as [[_ ->]|[Hno ->]].
  - intros i j x y Hi Hij Hx Hy. destruct (decide (i = k)) as [->|Hne].
    + by apply lookup_deleteElement_eq in Hx.
    + rewrite lookup_deleteElement_ne in Hx by done. apply (Hg i j); [lia|done..].
  - intros i j x y Hi Hij Hx Hy. destruct (decide (i = k)) as [->|Hne].
    + rewrite (inv_pending _ _ _ Hinv k z) in Hx by done. simplify_eq.
      intros Hocc. apply Hno. exists j, y. split_and!; [lia| |done].
      apply (inv_pending _ _ _ Hinv); [lia|done].
    + apply (Hg i j); [lia|done..].
Qed.

(** The rule that decides whether an index keeps its element. *)
Lemma sanitizeLoop_kept_iff l i x :
  l !! i = Some x →
  sanitizeLoop l !! i = Some (Some x) ↔
  ∀ j y, l !! j = Some y → occurs x y → y = x ∧ (j ≤ i)%nat.
Proof.
  intros Hi. destruct (sanitizeLoop_inv l) as [Hlen Horig _ Hkept Hcover].
  pose proof (sanitizeLoop_later l) as Hlater. split.
  - intros Hp j y Hj Hxy.
    destruct (Hcover j y Hj) as (j' & y' & Hj' & Hyy').
    assert (j' = i) as ->.
    { destruct (decide (i = j')) as [|Hne]; [done|]. exfalso.
      apply (Hkept i j' x y'); eauto using occurs_trans.
      by eapply lookup_lt_Some. }
    simplify_eq. assert (y = x) as -> by by apply occurs_antisym.
    split; [done|]. destruct (decide (j ≤ i)%nat); [done|]. exfalso.
    apply (Hlater i j x x); [lia|done..].
  - intros Hmax. destruct (Hcover i x Hi) as (j' & y' & Hj' & Hxy').
    destruct (Hmax j' y' (Horig _ _ Hj') Hxy') as [-> Hle].
    destruct (decide (j' = i)) as [->|Hne]; [done|]. exfalso.
    apply (Hlater j' i x x); [lia|done..|apply occurs_refl].
Qed.

(** X1. After the loops of [sanitizeFieldMap] every index of the working
    array holds its original element or a hole, and it holds the element
    exactly when nothing else in the input contains that element, equal
    elements at earlier indices apart: of equal paths the last occurrence is
    the one that is kept. The result lists the elements left over. *)
Theorem sanitizeFieldMap_positions (fieldMap : list string) :
  sanitizeFieldMap fieldMap = omap id (sanitizeLoop fieldMap)
  ∧ length (sanitizeLoop fieldMap) = length fieldMap
  ∧ ∀ i x, fieldMap !! i = Some x →
      (sanitizeLoop fieldMap !! i = Some (Some x)
       ∨ sanitizeLoop fieldMap !! i = Some None)
      ∧ (sanitizeLoop fieldMap !! i = Some (Some x) ↔
         ∀ j y, fieldMap !! j = Some y → occurs x y → y = x ∧ (j ≤ i)%nat).
Proof.
  destruct (sanitizeLoop_inv fieldMap) as [Hlen Horig _ _ _].
  split_and!; [done..|]. intros i x Hi.
  assert (i < length (sanitizeLoop fieldMap))%nat as Hlt.
  { rewrite Hlen. by eapply lookup_lt_Some. }
  split; [|by apply sanitizeLoop_kept_iff].
  destruct (lookup_lt_is_Some_2 _ _ Hlt) as [[z|] Hz]; [left|by right].
  rewrite Hz. apply Horig in Hz. by simplify_eq.
Qed.

Lemma sanitizeFieldMap_positions_witness :
  sanitizeLoop ["a"; "a"] !! 1%nat = Some (Some "a")
  ∨ sanitizeLoop ["a"; "a"] !! 1%nat = Some None.
Proof.
  exact (proj1 (proj2 (proj2 (sanitizeFieldMap_positions ["a"; "a"]))
                  1%nat "a" eq_refl)).
Defined.

Lemma omap_id_fmap_Some l : omap id (Some <$> l) = l.
Proof.
  induction l as [|x l IH]; [done|]. rewrite fmap_cons. simpl. f_equal. exact IH.
Qed.

(** What is left of the input, and that it has no duplicates. *)
Lemma sanitize_elem_of l P :
  P ∈ sanitizeFieldMap l ↔ P ∈ l ∧ ∀ Q, Q ∈ l → occurs P Q → Q = P.
Proof.
  destruct (sanitizeLoop_inv l) as [Hlen Horig _ Hkept Hcover].
  rewrite sanitizeFieldMap_unfold, elem_of_omap_id. split.
  - intros [i Hi]. split; [eapply list_elem_of_lookup_2, Horig, Hi|].
    intros Q [j Hj]%list_elem_of_lookup HPQ.
    destruct (Hcover j Q Hj) as (j' & Q' & Hj' & HQQ').
    destruct (decide (i = j')) as [->|Hne].
    + simplify_eq. by apply occurs_antisym.
    + exfalso. apply (Hkept i j' P Q'); eauto using occurs_trans.
      apply lookup_lt_Some in Hi. lia.
  - intros [[j Hj]%list_elem_of_lookup Hmax].
    destruct (Hcover j P Hj) as (j' & Q' & Hj' & HPQ').
    exists j'. rewrite Hj'. do 2 f_equal. apply Hmax; [|done].
    eapply list_elem_of_lookup_2, Horig, Hj'.
Qed.

Lemma sanitize_NoDup l : NoDup (sanitizeFieldMap l).
Proof.
  destruct (sanitizeLoop_inv l) as [Hlen _ _ Hkept _].
  rewrite sanitizeFieldMap_unfold. apply omap_id_NoDup. intros i j x Hij Hi Hj.
  apply (Hkept i j x x); eauto using occurs_refl.
  apply lookup_lt_Some in Hi. lia.
Qed.

(** A list without redundancy is a fixed point. *)
Lemma sanitize_fixed l :
  NoDup l → (∀ P Q, P ∈ l → Q ∈ l → occurs P Q → Q = P) →
  sanitizeFieldMap l = l.
Proof.
  intros Hnd Hanti. destruct (sanitizeLoop_inv l) as [Hlen _ _ _ _].
  rewrite sanitizeFieldMap_unfold. rewrite <-(omap_id_fmap_Some l) at 2. f_equal.
  apply list_eq. intros i. rewrite list_lookup_fmap.
  destruct (l !! i) as [x|] eqn:Hi; simpl.
  - apply (sanitizeLoop_kept_iff l i x Hi). intros j y Hj Hxy.
    assert (y = x) as ->.
    { apply Hanti; [eapply list_elem_of_lookup_2, Hi
                   |eapply list_elem_of_lookup_2, Hj|done]. }
    split; [done|]. by rewrite (NoDup_lookup _ _ _ _ Hnd Hj Hi).
  - apply lookup_ge_None. rewrite Hlen. by apply lookup_ge_None.
Qed.

(** X2. A field map comes back unchanged, in its order, exactly when it has
    no duplicates and none of its paths contains another. *)
Theorem sanitizeFieldMap_unchanged_iff (fieldMap : list string) :
  sanitizeFieldMap fieldMap = fieldMap ↔
  NoDup fieldMap ∧ ∀ P Q, P ∈ fieldMap → Q ∈ fieldMap → occurs P Q → Q = P.
Proof.
  split.
  - intros Heq. split.
    + rewrite <-Heq. apply sanitize_NoDup.
    + intros P Q HP HQ HPQ. rewrite <-Heq in HP.
      apply sanitize_elem_of in HP as [_ Hmax]. by apply Hmax.
  - intros [Hnd Hanti]. by apply sanitize_fixed.
Qed.

(** X3. Sanitizing twice is sanitizing once. *)
Theorem sanitizeFieldMap_idempotent (fieldMap : list string) :
  sanitizeFieldMap (sanitizeFieldMap fieldMap) = sanitizeFieldMap fieldMap.
Proof.
  apply sanitize_fixed; [apply sanitize_NoDup|].
  intros P Q [HP HPmax]%sanitize_elem_of [HQ _]%sanitize_elem_of HPQ. by apply HPmax.
Qed.

(** X4. Something is always left of a list that is not empty: the result is
    empty only for the empty list. *)
Theorem sanitizeFieldMap_nil_iff (fieldMap : list string) :
  sanitizeFieldMap fieldMap = [] ↔ fieldMap = [].
Proof.
  split; [|by intros ->].
  destruct fieldMap as [|x l]; [done|]. intros Hnil. exfalso.
  destruct (sanitizeLoop_inv (x :: l)) as [_ _ _ _ Hcover].
  destruct (Hcover 0%nat x eq_refl) as (j & y & Hj & _).
  assert (y ∈ sanitizeFieldMap (x :: l)) as Hin.
  { rewrite sanitizeFieldMap_unfold. apply elem_of_omap_id. eauto. }
  rewrite Hnil in Hin. by apply not_elem_of_nil in Hin.
Qed.

End SanitizePositions.

(** ** getRelationMap, further *)

Lemma getRelationMap_nil_iff fieldMap :
  getRelationMap fieldMap = [] ↔ ∀ field, field ∈ fieldMap → ¬ occurs "." field.
Proof.
  split.
  - intros Hnil field Hin Hdot%indexOf_occurs.
    assert (relationOf field ∈ getRelationMap fieldMap) as Hr.
    { apply getRelationMap_elem_of. by exists field. }
    rewrite Hnil in Hr. by apply not_elem_of_nil in Hr.
  - intros Hno. destruct (getRelationMap fieldMap) as [|r rs] eqn:Hrs; [done|].
    assert (r ∈ getRelationMap fieldMap) as Hr by (rewrite Hrs; left).
    apply getRelationMap_elem_of in Hr as (field & Hin & Hdot%indexOf_occurs & _).
    by destruct (Hno field Hin).
Qed.

Lemma getUniqueRelationMap_no_relation makeId fieldMap :
  getRelationMap fieldMap = [] → getUniqueRelationMap makeId fieldMap = [].
Proof. intros Hnil. rewrite getUniqueRelationMap_unfold. by rewrite Hnil. Qed.

(** X5. The relation map is empty exactly when no path has a dot, and then
    [getUniqueRelationMap] returns the empty map whatever the generator. *)
Theorem no_dotted_path (fieldMap : list string) :
  (getRelationMap fieldMap = [] ↔ ∀ field, field ∈ fieldMap → ¬ occurs "." field)
  ∧ ∀ makeId, (∀ field, field ∈ fieldMap → ¬ occurs "." field) →
      getUniqueRelationMap makeId fieldMap = [].
Proof.
  split; [apply getRelationMap_nil_iff|].
  intros makeId Hno. by apply getUniqueRelationMap_no_relation, getRelationMap_nil_iff.
Qed.

Lemma no_dotted_path_witness :
  getUniqueRelationMap sampleIds ["name"; "total"] = [].
Proof.
  apply (proj2 (no_dotted_path ["name"; "total"])).
  intros field Hin Hocc%indexOf_occurs. revert Hocc.
  assert (Forall (λ f, indexOf f "." = -1) ["name"; "total"]) as Hall.
  { apply (bool_decide_unpack _). vm_compute. exact I. }
  intros Hocc. apply Hocc. by apply (proj1 (Forall_forall _ _) Hall).
Defined.

(** X6. The relation map of a concatenation is the relation map of the first
    part followed by what the second part adds to it. *)
Theorem getRelationMap_app (fieldMap1 fieldMap2 : list string) :
  getRelationMap (fieldMap1 ++ fieldMap2)
  = getRelationMap fieldMap1
    ++ filter (λ r, r ∉ getRelationMap fieldMap1) (getRelationMap fieldMap2).
Proof.
  rewrite (getRelationMap_firstSeen fieldMap2).
  unfold getRelationMap at 1. rewrite filter_app, fold_left_app.
  change (fold_left _ (filter _ fieldMap1) []) with (getRelationMap fieldMap1).
  apply getRelationMap_fold, getRelationMap_NoDup.
Qed.

(** ** getAliasedTargetRelation, for any map *)

(** X7. [getAliasedTargetRelation] returns a root relation as it is; for
    [R = p.last] it returns [R] when [p] is no key of the map, and otherwise
    [R] with its prefix [p] replaced through the alias of [p], which leaves
    the final segment in place; the empty-string sentinel of the source never
    hides a replacement. With an alias free of [$] the result is
    [alias.last]. *)
Theorem getAliasedTargetRelation_cases (urm : UniqueRelationMap) (R : string) :
  (¬ occurs "." R → getAliasedTargetRelation urm R = R)
  ∧ ∀ p last, R = p +:+ "." +:+ last → ¬ occurs "." last →
      match JsObject.get urm p with
      | None => getAliasedTargetRelation urm R = R
      | Some bp =>
          getAliasedTargetRelation urm R = replace R p (uniqueAlias bp)
          ∧ (∃ t, getAliasedTargetRelation urm R = t +:+ "." +:+ last)
          ∧ (indexOf (uniqueAlias bp) "$" = -1 →
             getAliasedTargetRelation urm R = uniqueAlias bp +:+ "." +:+ last)
      end.
Proof.
  split.
  - intros Hno%indexOf_not_occurs. by apply getAliasedTargetRelation_root.
  - intros p last HR Hlast.
    assert (indexOf R "." ≠ -1) as Hdot by (apply indexOf_occurs; by exists p, last).
    rewrite getAliasedTargetRelation_nested by done.
    rewrite (relationOf_unique R p last) by done.
    destruct (JsObject.get urm p) as [bp|]; [|done].
    split_and!; [done| |].
    + rewrite HR, replace_prefix. eauto.
    + intros Hplain. by rewrite HR, replace_prefix, getSubstitution_plain.
Qed.

Lemma getAliasedTargetRelation_cases_witness :
  getAliasedTargetRelation sampleUrm "store.orders" = "bbbbb.orders".
Proof.
  pose proof (proj2 (getAliasedTargetRelation_cases sampleUrm "store.orders")
                "store" "orders" eq_refl) as Hcase.
  assert (¬ occurs "." "orders") as Hno.
  { intros Hocc%indexOf_occurs. by vm_compute in Hocc. }
  specialize (Hcase Hno).
  change (JsObject.get sampleUrm "store")
    with (Some {| uniqueAlias := "bbbbb"; targetRelation := "store";
                  aliasedTargetRelation := "store" |}) in Hcase.
  exact (proj2 (proj2 Hcase) eq_refl).
Defined.

(** ** getUniqueRelationMap, further *)

Section UniqueRelationMapMore.
Variable makeId : nat → string.

(** X8. The map has one binding for every relation path of the field map but
    ["__proto__"], in first-seen order and without duplicate keys: a key
    [R] is bound exactly when some path of the field map is [R.last], [last]
    being its final segment. *)
Theorem getUniqueRelationMap_keys (fieldMap : list string) :
  let urm := getUniqueRelationMap makeId fieldMap in
  urm.*1 = filter (λ r, r ≠ "__proto__") (getRelationMap fieldMap)
  ∧ NoDup urm.*1
  ∧ ∀ R, is_Some (JsObject.get urm R) ↔
         R ≠ "__proto__"
         ∧ ∃ field last, field ∈ fieldMap ∧ field = R +:+ "." +:+ last
                         ∧ ¬ occurs "." last.
Proof.
  cbn zeta. destruct (getUniqueRelationMap_entries makeId fieldMap) as (Hkeys & _ & _).
  split_and!; [done|apply getUniqueRelationMap_NoDup|].
  intros R. rewrite get_is_Some, Hkeys, list_elem_of_filter, getRelationMap_elem_of.
  split.
  - intros (Hp & field & Hin & Hdot & ->). split; [done|].
    destruct (relationOf_spec field Hdot) as (last & Heq & Hlast).
    by exists field, last.
  - intros (Hp & field & last & Hin & Heq & Hlast). split; [done|].
    exists field. split_and!; [done| |].
    + apply indexOf_occurs. by exists R, last.
    + symmetry. by eapply relationOf_unique.
Qed.

(** The binding of the relation path at index [i] carries the token drawn
    at turn [d0 + i]. *)
Lemma urm_loop_token rels urm0 d0 :
  NoDup rels → (∀ r, r ∈ rels → r ∉ urm0.*1) →
  ∀ i R, rels !! i = Some R → R ≠ "__proto__" →
    ∃ b, JsObject.get (fold_left (urmStep makeId) rels (urm0, d0)).1 R = Some b
         ∧ uniqueAlias b = makeId (d0 + i)%nat.
Proof.
  revert urm0 d0. induction rels as [|r rels IH]; intros urm0 d0 Hnd Hfresh i R Hi HR;
    [done|].
  apply NoDup_cons in Hnd as [Hr Hnd].
  destruct i as [|i]; simpl in Hi.
  - simplify_eq. simpl. rewrite set_fresh by (try done; apply Hfresh; left).
    match goal with |- context [urm0 ++ [(R, ?b)]] => set (bR := b) end.
    destruct (urm_loop makeId rels (urm0 ++ [(R, bR)]) (S d0) Hnd) as (ext & -> & _).
    { intros r' Hr'. rewrite fmap_app, not_elem_of_app. split.
      - apply Hfresh. by right.
      - simpl. rewrite list_elem_of_singleton. by intros ->. }
    exists bR. split; [|by rewrite Nat.add_0_r].
    rewrite <-app_assoc. apply get_middle. apply Hfresh. left.
  - simpl. replace (d0 + S i)%nat with (S d0 + i)%nat by lia.
    destruct (decide (r = "__proto__")) as [->|Hproto].
    + rewrite set_proto. apply IH; try done. intros r' Hr'. apply Hfresh. by right.
    + rewrite set_fresh by (try done; apply Hfresh; left).
      apply IH; try done. intros r' Hr'. rewrite fmap_app, not_elem_of_app. split.
      * apply Hfresh. by right.
      * simpl. rewrite list_elem_of_singleton. by intros ->.
Qed.

(** X9. Tokens are handed out in the order of the relation map: the binding
    of the relation path at index [i] has the token of the [i]-th call of the
    generator as its [uniqueAlias] (a token is drawn for ["__proto__"] too,
    and lost). *)
Theorem getUniqueRelationMap_tokens (fieldMap : list string) :
  ∀ i R, getRelationMap fieldMap !! i = Some R → R ≠ "__proto__" →
    ∃ b, JsObject.get (getUniqueRelationMap makeId fieldMap) R = Some b
         ∧ uniqueAlias b = makeId i.
Proof.
  intros i R Hi HR. rewrite getUniqueRelationMap_unfold.
  apply (urm_loop_token (getRelationMap fieldMap) [] 0%nat); try done.
  - apply getRelationMap_NoDup.
  - intros r _. apply not_elem_of_nil.
Qed.

(** X10. A binding whose key has no dot is a root relation: its
    [aliasedTargetRelation] is the key itself. *)
Theorem getUniqueRelationMap_root (fieldMap : list string) :
  ∀ R b, JsObject.get (getUniqueRelationMap makeId fieldMap) R = Some b →
    ¬ occurs "." R → aliasedTargetRelation b = R ∧ targetRelation b = R.
Proof.
  intros R b (before & after & Heq & _)%get_Some_split Hno%indexOf_not_occurs.
  destruct (getUniqueRelationMap_entries makeId fieldMap) as (_ & _ & Hent).
  destruct (Hent _ _ _ _ Heq) as [-> ->].
  by rewrite getAliasedTargetRelation_root.
Qed.

End UniqueRelationMapMore.

Lemma getUniqueRelationMap_tokens_witness :
  ∃ b, JsObject.get (getUniqueRelationMap sampleIds ["store.location.city"; "store.id"])
         "store" = Some b
       ∧ uniqueAlias b = sampleIds 1%nat.
Proof.
  apply (getUniqueRelationMap_tokens sampleIds
           ["store.location.city"; "store.id"] 1%nat "store"); [reflexivity|done].
Defined.

Lemma getUniqueRelationMap_root_witness :
  aliasedTargetRelation
    {| uniqueAlias := "bbbbb"; targetRelation := "store";
       aliasedTargetRelation := "store" |} = "store".
Proof.
  refine (proj1 (getUniqueRelationMap_root sampleIds
                   ["store.location.city"; "store.id"] "store" _ eq_refl _)).
  intros Hocc%indexOf_occurs. by vm_compute in Hocc.
Defined.

(** ** The calls on the builder, further *)



(** X12. Every column [assignSelectionToQuery] hands to [select] is
    qualified, that is, contains a dot, whatever the map and the path; and
    [select] is the one call it makes. *)
Theorem selection_qualified (fieldMap : list string) (urm : UniqueRelationMap)
    (q : SelectQueryBuilder) :
  ∃ selection,
    assignSelectionToQuery fieldMap urm q = call (Select selection) q
    ∧ Forall (occurs ".") selection.
Proof.
  exists (selectField (alias q) urm <$> fieldMap). split; [done|].
  apply Forall_fmap, Forall_forall. intros field _. simpl.
  rewrite selectField_last_key. cbn zeta. case_decide as Hdot; [done|].
  exists (alias q), (match last (filter (λ k, occurs k field) (JsObject.keys urm)) with
                      | Some k => match JsObject.get urm k with
                                  | Some b => replace field k (uniqueAlias b)
                                  | None => field
                                  end
                      | None => field
                      end). done.
Qed.

(** X13. A path in which no key of the map occurs is selected as it is, with
    the root alias and a dot in front when it has no dot of its own; so it is
    for every path when the map is empty. *)
Theorem selectField_no_key (rootAlias : string) (urm : UniqueRelationMap)
    (field : string) :
  (∀ k, k ∈ urm.*1 → ¬ occurs k field) →
  selectField rootAlias urm field
  = if decide (occurs "." field) then field else rootAlias +:+ "." +:+ field.
Proof.
  intros Hno. rewrite selectField_last_key.
  destruct (filter (λ k, occurs k field) (JsObject.keys urm)) as [|k ks] eqn:Hf;
    [done|].
  assert (k ∈ filter (λ k, occurs k field) (JsObject.keys urm)) as Hk
    by (rewrite Hf; left).
  apply list_elem_of_filter in Hk as [Hocc Hk%elem_of_keys]. by destruct (Hno k).
Qed.

Lemma selectField_no_key_witness :
  selectField "order" [] "total" = "order.total".
Proof.
  refine (selectField_no_key "order" [] "total" _).
  intros k Hk. by apply not_elem_of_nil in Hk.
Defined.

(** X14. When a path is [K.rest] and [K] is the last key, in the order of
    [Object.keys], that occurs in it, its column is [alias.rest], [alias]
    being the [uniqueAlias] of [K] (free of [$]); the root alias is not put
    in front. For [K] the relation path of the field this is the column of
    the joined relation; for [K] a shorter ancestor listed later it is the
    ancestor's alias followed by the rest of the path. *)
Theorem selectField_prefix_key (rootAlias : string) (urm : UniqueRelationMap)
    (K rest : string) (b : RelationBinding) :
  last (filter (λ k, occurs k (K +:+ "." +:+ rest)) (JsObject.keys urm)) = Some K →
  JsObject.get urm K = Some b →
  indexOf (uniqueAlias b) "$" = -1 →
  selectField rootAlias urm (K +:+ "." +:+ rest) = uniqueAlias b +:+ "." +:+ rest.
Proof.
  intros Hlast Hget Hplain. rewrite selectField_last_key, Hlast, Hget. cbn zeta.
  rewrite replace_prefix, getSubstitution_plain by done.
  apply decide_True. by exists (uniqueAlias b), rest.
Qed.

Lemma selectField_prefix_key_witness :
  selectField "order" sampleUrm "store.location.city" = "bbbbb.location.city".
Proof.
  exact (selectField_prefix_key "order" sampleUrm "store" "location.city"
           {| uniqueAlias := "bbbbb"; targetRelation := "store";
              aliasedTargetRelation := "store" |} eq_refl eq_refl eq_refl).
Defined.

(** ** mapGraph, further *)



(** X16. Every key of the map [mapGraph] returns is the relation path of a
    path that survived sanitation, and so of a path of the caller's field map:
    the relation paths of paths that sanitation dropped are joined only if a
    surviving path has them too. *)
Theorem mapGraph_keys (makeId : nat → string) (fieldMap : list string)
    (entity : Entity) (q q' : SelectQueryBuilder) (urm : UniqueRelationMap) :
  mapGraph makeId fieldMap entity q = Returned urm q' →
  ∀ R, R ∈ urm.*1 →
    ∃ field last,
      field ∈ sanitizeFieldMap fieldMap ∧ field ∈ fieldMap
      ∧ field = R +:+ "." +:+ last ∧ ¬ occurs "." last.
Proof.
  intros Hrun R HR.
  assert (urm = getUniqueRelationMap makeId (sanitizeFieldMap fieldMap)) as ->.
  { rewrite mapGraph_plan in Hrun. unfold bind in Hrun.
    destruct (forEachQ call _ q) as [[] q''|c q'']; [|done].
    unfold ret in Hrun. by simplify_eq. }
  destruct (getUniqueRelationMap_entries makeId (sanitizeFieldMap fieldMap))
    as (Hkeys & _ & _).
  rewrite Hkeys in HR.
  apply list_elem_of_filter in HR as [_ HR].
  apply getRelationMap_elem_of in HR as (field & Hin & Hdot & ->).
  destruct (relationOf_spec field Hdot) as (last & Heq & Hlast).
  exists field, last. split_and!; try done. by apply sanitize_elem_of in Hin as [? _].
Qed.

Lemma mapGraph_keys_witness :
  ∃ field last,
    field ∈ sanitizeFieldMap ["store"; "store.id"] ∧ field ∈ ["store"; "store.id"]
    ∧ field = "store" +:+ "." +:+ last ∧ ¬ occurs "." last.
Proof.
  refine (mapGraph_keys sampleIds ["store"; "store.id"] "Order" (freshQuery "order")
            _ _ eq_refl "store" _).
  left.
Defined.

(** X17. For a field map of root properties only, no path having a dot,
    [mapGraph] joins nothing: with a builder that lets its calls return, the
    calls are the metadata lookup and one [select] of the sanitized paths,
    each with the root alias and a dot in front, and the map returned is
    empty. *)
Theorem mapGraph_root_properties (makeId : nat → string) (fieldMap : list string)
    (entity : Entity) (q : SelectQueryBuilder) :
  (∀ field, field ∈ fieldMap → ¬ occurs "." field) →
  (∀ cs c, accepts q cs c = true) →
  mapGraph makeId fieldMap entity q
  = Returned []
      (afterCalls
         [GetMetadata entity;
          Select ((λ field, alias q +:+ "." +:+ field) <$> sanitizeFieldMap fieldMap)]
         q).
Proof.
  intros Hno Hacc. rewrite mapGraph_plan. unfold bind.
  rewrite forEachQ_call_accepted by done. unfold mapGraphPlan. cbn zeta.
  assert (∀ field, field ∈ sanitizeFieldMap fieldMap → ¬ occurs "." field) as Hno'.
  { intros field [Hin _]%sanitize_elem_of. by apply Hno. }
  rewrite (getUniqueRelationMap_no_relation makeId (sanitizeFieldMap fieldMap))
    by by apply getRelationMap_nil_iff.
  unfold ret. do 3 f_equal.
  change (joinPlan (alias q) [] ++ ?l) with l. do 2 f_equal.
  apply list_fmap_ext. intros i field Hi.
  unfold selectField. simpl. apply decide_True, indexOf_not_occurs, Hno'.
  by eapply list_elem_of_lookup_2.
Qed.

Lemma mapGraph_root_properties_witness :
  mapGraph sampleIds ["name"; "total"; "name"] "Order" (freshQuery "order")
  = Returned []
      (afterCalls [GetMetadata "Order"; Select ["order.total"; "order.name"]]
         (freshQuery "order")).
Proof.
  refine (mapGraph_root_properties sampleIds ["name"; "total"; "name"] "Order"
            (freshQuery "order") _ _); [|done].
  intros field Hin Hocc%indexOf_occurs. revert Hocc.
  assert (Forall (λ f, indexOf f "." = -1) ["name"; "total"; "name"]) as Hall.
  { apply (bool_decide_unpack _). vm_compute. exact I. }
  intros Hocc. apply Hocc. by apply (proj1 (Forall_forall _ _) Hall).
Defined.

(** ** The store, further *)

(** X18. Every call of [sanitizeFieldMap] returns an array of its own: two
    calls on the same argument return different arrays with the same
    elements, neither of them the argument, and the first result is not
    touched by the second call. *)
Theorem sanitizeFieldMap_fresh (fieldMap : Store.ref) (σ : Store.store)
    (l : list string) :
  σ !! fieldMap = Some (Some <$> l) →
  let out1 := Store.sanitizeFieldMap fieldMap σ in
  let out2 := Store.sanitizeFieldMap fieldMap out1.2 in
  out1.1 ≠ out2.1 ∧ out1.1 ≠ fieldMap ∧ out2.1 ≠ fieldMap
  ∧ out2.2 !! out1.1 = Some (Some <$> GraphSelectionMapper.sanitizeFieldMap l)
  ∧ out2.2 !! out2.1 = Some (Some <$> GraphSelectionMapper.sanitizeFieldMap l)
  ∧ length out2.2 = (length σ + 4)%nat.
Proof.
  intros Hl. pose proof (lookup_lt_Some _ _ _ Hl) as Hlt. cbn zeta.
  rewrite (sanitizeFieldMap_store _ _ _ Hl). cbn [fst snd].
  rewrite (sanitizeFieldMap_store fieldMap _ l) by by apply lookup_app_l_Some.
  cbn [fst snd]. rewrite !length_app. simpl. split_and!; try lia.
  - rewrite lookup_app_l by (rewrite length_app; simpl; lia).
    by rewrite (lookup_app_r σ) by lia; rewrite Nat.sub_succ_l, Nat.sub_diag by lia.
  - rewrite lookup_app_r by (rewrite length_app; simpl; lia).
    rewrite length_app. simpl.
    by replace (S (length σ + 2) - (length σ + 2))%nat with 1%nat by lia.
Qed.

Lemma sanitizeFieldMap_fresh_witness :
  (Store.sanitizeFieldMap 0%nat [Some <$> testFieldMap]).1
  ≠ (Store.sanitizeFieldMap 0%nat
       (Store.sanitizeFieldMap 0%nat [Some <$> testFieldMap]).2).1.
Proof.
  exact (proj1 (sanitizeFieldMap_fresh 0%nat [Some <$> testFieldMap] testFieldMap
                  eq_refl)).
Defined.

(** ** The join plan of a map made by getUniqueRelationMap *)

Lemma joinPlan_Forall2 rootAlias (urm : UniqueRelationMap) :
  Forall2 (λ k c, joinCall rootAlias urm k = Some c)
    (JsObject.keys urm) (joinPlan rootAlias urm).
Proof.
  apply omap_total. intros k [b Hb]%elem_of_keys%get_is_Some.
  unfold joinCall. rewrite Hb. simpl. eauto.
Qed.

(** X19. In the join plan of a map [getUniqueRelationMap] made (no key an
    array index), a join whose target was rewritten to [alias.last] comes
    after the join that binds [alias]: when [R = p.last] and [p] is an
    earlier key, the call for [R] joins [alias(p).last] as [alias(R)], and
    the call that binds [alias(p)] stands before it in the plan. *)
Theorem joinPlan_alias_bound_before (makeId : nat → string)
    (fieldMap : list string) (rootAlias : string)
    (before after : UniqueRelationMap) (R p last : string)
    (b bp : RelationBinding) :
  let urm := getUniqueRelationMap makeId fieldMap in
  (∀ k, k ∈ urm.*1 → JsObject.arrayIndex k = None) →
  urm = before ++ (R, b) :: after →
  R = p +:+ "." +:+ last → ¬ occurs "." last →
  p ∈ before.*1 → JsObject.get urm p = Some bp →
  indexOf (uniqueAlias bp) "$" = -1 →
  joinPlan rootAlias urm !! length before
  = Some (LeftJoinAndSelect (uniqueAlias bp +:+ "." +:+ last) (uniqueAlias b))
  ∧ ∃ j target,
      (j < length before)%nat
      ∧ joinPlan rootAlias urm !! j
        = Some (LeftJoinAndSelect target (uniqueAlias bp)).
Proof.
  cbn zeta. intros Hidx Heq HR Hlast Hp Hbp Hplain.
  pose proof (joinPlan_Forall2 rootAlias (getUniqueRelationMap makeId fieldMap))
    as Hplan.
  pose proof (getUniqueRelationMap_NoDup makeId fieldMap) as Hnd.
  destruct (getUniqueRelationMap_entries makeId fieldMap) as (_ & _ & Hent).
  destruct (Hent _ _ _ _ Heq) as [_ Hatr].
  rewrite (keys_creation_order _ Hidx) in Hplan.
  revert Hplan Hbp Hnd. rewrite Heq, fmap_split_keys. intros Hplan Hbp Hnd.
  assert (R ∉ before.*1) as HRb.
  { apply NoDup_app in Hnd as (_ & Hnot & _). intros HR'. apply (Hnot R HR'). left. }
  assert (indexOf R "." ≠ -1) as Hdot by (apply indexOf_occurs; by exists p, last).
  split.
  - assert ((before.*1 ++ R :: after.*1) !! length before = Some R) as HiR.
    { rewrite <-(length_fmap fst before). apply list_lookup_middle. done. }
    destruct (Forall2_lookup_l _ _ _ _ _ Hplan HiR) as (c & -> & Hc).
    unfold joinCall in Hc. rewrite get_middle in Hc by done. simpl in Hc.
    rewrite decide_False in Hc by done. simplify_eq. do 2 f_equal.
    rewrite Hatr, getAliasedTargetRelation_nested by done.
    rewrite (relationOf_unique _ p last) by done.
    apply get_is_Some in Hp as [bp' Hbp'].
    rewrite get_app, Hbp' in Hbp. simplify_eq.
    by rewrite Hbp', replace_prefix, getSubstitution_plain.
  - apply list_elem_of_lookup in Hp as [j Hj].
    pose proof (lookup_lt_Some _ _ _ Hj) as Hlt. rewrite length_fmap in Hlt.
    assert ((before.*1 ++ R :: after.*1) !! j = Some p) as Hjp
      by by apply lookup_app_l_Some.
    destruct (Forall2_lookup_l _ _ _ _ _ Hplan Hjp) as (c & Hc' & Hc).
    unfold joinCall in Hc. rewrite Hbp in Hc. simpl in Hc.
    case_decide; simplify_eq; eauto.
Qed.

Lemma joinPlan_alias_bound_before_witness :
  joinPlan "order"
    (getUniqueRelationMap sampleIds ["store.id"; "store.location.city"]) !! 1%nat
  = Some (LeftJoinAndSelect "aaaaa.location" "bbbbb").
Proof.
  refine (proj1 (joinPlan_alias_bound_before sampleIds
                   ["store.id"; "store.location.city"] "order"
                   [("store", _)] [] "store.location" "store" "location" _ _
                   _ eq_refl eq_refl _ _ eq_refl eq_refl)).
  - apply Forall_forall. apply (bool_decide_unpack _). vm_compute. exact I.
  - intros Hocc%indexOf_occurs. by vm_compute in Hocc.
  - left.
Defined.

(** ** The tokens a run draws *)

Lemma urm_loop_tokens_ext makeId1 makeId2 rels urm0 d0 :
  (∀ i, (i < length rels)%nat → makeId1 (d0 + i)%nat = makeId2 (d0 + i)%nat) →
  fold_left (urmStep makeId1) rels (urm0, d0)
  = fold_left (urmStep makeId2) rels (urm0, d0).
Proof.
  revert urm0 d0. induction rels as [|r rels IH]; intros urm0 d0 Hids; [done|].
  assert (makeId1 d0 = makeId2 d0) as Hd0.
  { specialize (Hids 0%nat). rewrite Nat.add_0_r in Hids. apply Hids. simpl. lia. }
  cbn [fold_left]. unfold urmStep at 2 4. rewrite Hd0.
  apply IH. intros i Hi. replace (S d0 + i)%nat with (d0 + S i)%nat by lia.
  apply Hids. simpl. lia.
Qed.

(** X20. A run draws one token per relation path and looks at nothing else
    of the generator: two generators that agree on their first [n] tokens,
    [n] the number of relation paths, give the same map. *)
Theorem getUniqueRelationMap_draws (makeId1 makeId2 : nat → string)
    (fieldMap : list string) :
  (∀ i, (i < length (getRelationMap fieldMap))%nat → makeId1 i = makeId2 i) →
  getUniqueRelationMap makeId1 fieldMap = getUniqueRelationMap makeId2 fieldMap.
Proof.
  intros Hids. rewrite !getUniqueRelationMap_unfold.
  by rewrite (urm_loop_tokens_ext makeId1 makeId2).
Qed.

Lemma getUniqueRelationMap_draws_witness :
  getUniqueRelationMap sampleIds ["store.id"]
  = getUniqueRelationMap constantIds ["store.id"].
Proof.
  apply getUniqueRelationMap_draws. intros i Hi.
  change (length (getRelationMap ["store.id"])) with 1%nat in Hi.
  by assert (i = 0%nat) as -> by lia.
Defined.
